(** * A stateful, bi-directional cursor over an interval tree

    Shallow embedding of [src/classes/cursor.js] (class [Cursor], its
    constructor and the methods [next] and [prev]) together with the
    properties of the cursor established against that embedding.

    Layout:
    - JavaScript values, intervals and items;
    - the interface the cursor consumes from the tree (a type class);
    - the cursor itself, written in a small state-and-trace monad so that
      the definitions read like the JavaScript methods;
    - a model of the tree behind the interface (a binary search tree whose
      node handles carry their parent links);
    - the theorems. *)

From Stdlib Require Import ZArith List Bool Lia Sorted String.
Import ListNotations.

Set Implicit Arguments.
Local Open Scope Z_scope.

(* ================================================================== *)
(** ** Values, intervals, items *)

(** Modelled from the spec: the class [Interval] is imported by the tree and is
    not part of [cursor.js].  The spec describes it as "an ordered pair
    (low, high) of comparable endpoints; used only as an ordering key".
    Endpoints are taken in [Z]. *)
Record Interval : Type := mkInterval { low : Z; high : Z }.

(** Modelled from the spec: the order of the keys ("the tree's native interval
    order"), taken as the order of the pair: by [low], then by [high]. *)
Definition less_than (a b : Interval) : bool :=
  (low a <? low b) || ((low a =? low b) && (high a <? high b)).

(** The JavaScript values that flow through the cursor: payloads stored in
    the tree and results of the output mapper.  [JNull] is the value [null]
    that [next] and [prev] return when no node is reached. *)
Inductive jsval : Type :=
| JUndefined
| JNull
| JBool (b : bool)
| JNum (z : Z)
| JStr (s : string)
| JInterval (i : Interval).

(** [node.item], an object with the fields [key] and [value]. *)
Record Item : Type := mkItem { key : Interval; value : jsval }.

(* ================================================================== *)
(** ** The interface of the tree

    [cursor.js] reads [tree.root] and calls six methods of the tree; it
    builds its search node with [new Node(interval)] and reads [node.item].
    The class below collects exactly these.  A JavaScript reference that is
    [null] or [undefined] is [None]: the cursor only ever tests such
    references for truthiness. *)
Class IntervalTreeOps (T N : Type) : Type := {
  root : T -> option N;
  tree_successor : T -> N -> option N;
  tree_precursor : T -> N -> option N;
  tree_search_nearest_forward : T -> option N -> N -> option N;
  tree_search_nearest_backward : T -> option N -> N -> option N;
  local_minimum : T -> N -> N;
  local_maximum : T -> N -> N;
  new_Node : Interval -> N;
  item : N -> Item
}.

(* ================================================================== *)
(** ** The cursor *)

Section CursorDefinitions.

Context {T N : Type} `{IntervalTreeOps T N}.

(** What a call of [next] or [prev] does to the outside: the methods of
    the tree it calls and the calls of the output mapper, in order, each
    with its arguments. *)
Inductive event : Type :=
| Call_tree_successor (node : N)
| Call_tree_precursor (node : N)
| Call_tree_search_nearest_forward (start : option N) (search : N)
| Call_tree_search_nearest_backward (start : option N) (search : N)
| Call_local_minimum (node : N)
| Call_local_maximum (node : N)
| Call_outputMapperFn (v : jsval) (k : Interval).

Definition is_tree_call (e : event) : bool :=
  match e with Call_outputMapperFn _ _ => false | _ => true end.

Definition is_search_call (e : event) : bool :=
  match e with
  | Call_tree_search_nearest_forward _ _
  | Call_tree_search_nearest_backward _ _ => true
  | _ => false
  end.

Definition is_mapper_call (e : event) : bool :=
  match e with Call_outputMapperFn _ _ => true | _ => false end.

(** The fields of a [Cursor] object. *)
Record Cursor : Type := mkCursor {
  tree : T;
  search_node : option N;
  outputMapperFn : jsval -> Interval -> jsval;
  current_node : option N
}.

(** [constructor(tree, interval, outputMapperFn)]; [interval] may be
    [null]. *)
Definition new_Cursor (tr : T) (interval : option Interval)
           (f : jsval -> Interval -> jsval) : Cursor :=
  {| tree := tr;
     search_node := match interval with
                    | Some i => Some (new_Node i)
                    | None => None
                    end;
     outputMapperFn := f;
     current_node := None |}.

(** *** A state-and-trace monad for the method bodies

    A method body runs on [this], may assign fields of [this], and leaves
    a trace of the calls it made. *)
Record Outcome (A : Type) : Type := mkOutcome {
  returned : A;
  this_after : Cursor;
  trace : list event
}.

Definition M (A : Type) : Type := Cursor -> Outcome A.

Definition ret {A} (a : A) : M A :=
  fun this => mkOutcome a this [].

Definition bind {A B} (m : M A) (k : A -> M B) : M B :=
  fun this =>
    let o1 := m this in
    let o2 := k (returned o1) (this_after o1) in
    mkOutcome (returned o2) (this_after o2) (trace o1 ++ trace o2).

Definition read {A} (field : Cursor -> A) : M A :=
  fun this => mkOutcome (field this) this [].

Definition assign_search_node (v : option N) : M unit :=
  fun this =>
    mkOutcome tt
      {| tree := tree this; search_node := v;
         outputMapperFn := outputMapperFn this;
         current_node := current_node this |} [].

Definition assign_current_node (v : option N) : M unit :=
  fun this =>
    mkOutcome tt
      {| tree := tree this; search_node := search_node this;
         outputMapperFn := outputMapperFn this;
         current_node := v |} [].

(** A call of a method of [this.tree], recorded in the trace. *)
Definition call_tree {A} (e : event) (method : T -> A) : M A :=
  fun this => mkOutcome (method (tree this)) this [e].

(** [this.outputMapperFn(v, k)], recorded in the trace. *)
Definition call_outputMapperFn (v : jsval) (k : Interval) : M jsval :=
  fun this => mkOutcome (outputMapperFn this v k) this [Call_outputMapperFn v k].

End CursorDefinitions.

Arguments event : clear implicits.
Arguments Cursor : clear implicits.
Arguments Outcome : clear implicits.
Arguments M : clear implicits.

Declare Scope cursor_scope.
Delimit Scope cursor_scope with cursor.
Notation "x <- m ;; k" := (bind m (fun x => k))
  (at level 61, m at next level, right associativity) : cursor_scope.
Notation "m ;; k" := (bind m (fun _ => k))
  (at level 61, right associativity) : cursor_scope.

Section CursorMethods.

Context {T N : Type} `{IntervalTreeOps T N}.
Local Open Scope cursor_scope.

(** [next()], lines 28-46. *)
Definition next : M T N jsval :=
  current <- read current_node ;;
  node_successor <-
    match current with
    | Some cur =>
        call_tree (Call_tree_successor cur) (fun t => tree_successor t cur)
    | None =>
        search <- read search_node ;;
        match search with
        | Some s =>
            tr <- read tree ;;
            found <- call_tree (Call_tree_search_nearest_forward (root tr) s)
                       (fun t => tree_search_nearest_forward t (root tr) s) ;;
            assign_search_node None ;;
            ret found
        | None =>
            tr <- read tree ;;
            match root tr with
            | Some rt =>
                m <- call_tree (Call_local_minimum rt)
                       (fun t => local_minimum t rt) ;;
                ret (Some m)
            | None => ret None
            end
        end
    end ;;
  assign_current_node node_successor ;;
  match node_successor with
  | Some n => call_outputMapperFn (value (item n)) (key (item n))
  | None => ret JNull
  end.

(** [prev()], lines 53-71. *)
Definition prev : M T N jsval :=
  current <- read current_node ;;
  node_precursor <-
    match current with
    | Some cur =>
        call_tree (Call_tree_precursor cur) (fun t => tree_precursor t cur)
    | None =>
        search <- read search_node ;;
        match search with
        | Some s =>
            tr <- read tree ;;
            found <- call_tree (Call_tree_search_nearest_backward (root tr) s)
                       (fun t => tree_search_nearest_backward t (root tr) s) ;;
            assign_search_node None ;;
            ret found
        | None =>
            tr <- read tree ;;
            match root tr with
            | Some rt =>
                m <- call_tree (Call_local_maximum rt)
                       (fun t => local_maximum t rt) ;;
                ret (Some m)
            | None => ret None
            end
        end
    end ;;
  assign_current_node node_precursor ;;
  match node_precursor with
  | Some n => call_outputMapperFn (value (item n)) (key (item n))
  | None => ret JNull
  end.

(** *** Sequences of calls on one cursor *)

Inductive method : Type := Next | Prev.

Definition call (m : method) : M T N jsval :=
  match m with Next => next | Prev => prev end.

(** The cursor after the calls [ms], made in order. *)
Fixpoint after (ms : list method) (c : Cursor T N) : Cursor T N :=
  match ms with
  | [] => c
  | m :: rest => after rest (this_after (call m c))
  end.

(** The outcomes of the calls [ms], made in order, one per call. *)
Fixpoint outcomes (ms : list method) (c : Cursor T N)
  : list (Outcome T N jsval) :=
  match ms with
  | [] => []
  | m :: rest => call m c :: outcomes rest (this_after (call m c))
  end.

(** The values the calls [ms] return. *)
Definition results (ms : list method) (c : Cursor T N) : list jsval :=
  map (@returned T N jsval) (outcomes ms c).

End CursorMethods.

(* ================================================================== *)
(** ** The branches of a call, read off the methods

    [next] and [prev] share one shape; the definitions below name what each
    branch calls and what it reaches, for both methods at once.  Lemma
    [call_outcome] further down proves that they describe [next] and [prev]
    exactly. *)

Section CursorReadings.

Context {T N : Type} `{IntervalTreeOps T N}.

(** The method of the tree a call delegates to when the cursor is anchored
    at [n]. *)
Definition step_event (m : method) (n : N) : event N :=
  match m with
  | Next => Call_tree_successor n
  | Prev => Call_tree_precursor n
  end.

Definition step_of (m : method) (t : T) (n : N) : option N :=
  match m with
  | Next => tree_successor t n
  | Prev => tree_precursor t n
  end.

(** The search a first call runs for a seek target [s]. *)
Definition search_event (m : method) (start : option N) (s : N) : event N :=
  match m with
  | Next => Call_tree_search_nearest_forward start s
  | Prev => Call_tree_search_nearest_backward start s
  end.

Definition search_of (m : method) (t : T) (s : N) : option N :=
  match m with
  | Next => tree_search_nearest_forward t (root t) s
  | Prev => tree_search_nearest_backward t (root t) s
  end.

(** The extremity a call starts from when there is neither a position nor
    a seek target. *)
Definition extremity_event (m : method) (rt : N) : event N :=
  match m with
  | Next => Call_local_minimum rt
  | Prev => Call_local_maximum rt
  end.

Definition extremity_of (m : method) (t : T) (rt : N) : N :=
  match m with
  | Next => local_minimum t rt
  | Prev => local_maximum t rt
  end.

(** The node a call reaches, read off the branch the method takes. *)
Definition reached (m : method) (c : Cursor T N) : option N :=
  match current_node c with
  | Some n => step_of m (tree c) n
  | None =>
      match search_node c with
      | Some s => search_of m (tree c) s
      | None =>
          match root (tree c) with
          | Some rt => Some (extremity_of m (tree c) rt)
          | None => None
          end
      end
  end.

(** The calls to the tree a call makes, read off the same branches. *)
Definition delegated (m : method) (c : Cursor T N) : list (event N) :=
  match current_node c with
  | Some n => [step_event m n]
  | None =>
      match search_node c with
      | Some s => [search_event m (root (tree c)) s]
      | None =>
          match root (tree c) with
          | Some rt => [extremity_event m rt]
          | None => []
          end
      end
  end.

(** The entry a call leaves the cursor at, if any. *)
Definition entry_reached (o : Outcome T N jsval) : option Item :=
  option_map item (current_node (this_after o)).

(** The entries the calls [ms] leave the cursor at, one per call. *)
Definition visited (ms : list method) (c : Cursor T N) : list (option Item) :=
  map entry_reached (outcomes ms c).

(** [k] rounds of [next()] followed by [prev()]. *)
Fixpoint alternate (k : nat) : list method :=
  match k with
  | O => []
  | S k' => Next :: Prev :: alternate k'
  end.

End CursorReadings.


(* ================================================================== *)
(** ** A model of the tree behind the interface

    The classes [IntervalTree] and [Node] live in files that [cursor.js]
    only imports.  The model below follows the spec's description of them: a
    binary search tree keyed by intervals whose nodes know their children
    and their parent, with successor, predecessor, nearest-neighbour search
    and minimum/maximum "found via standard BST traversal using parent
    links".  Balancing metadata plays no part in what the cursor observes
    and is left out; every shape of search tree is covered. *)
Module TreeModel.

(** Modelled from the spec: the subtrees hanging below a node ("Node: an
    opaque tree node holding one Entry plus whatever parent/child
    metadata the tree implementation needs"). *)
Inductive subtree : Type :=
| nil_node
| Fork (l : subtree) (it : Item) (r : subtree).

(** Modelled from the spec: one parent link, seen from the child: the
    parent's item, the parent's other subtree, and on which side of the
    parent the child hangs. *)
Inductive link : Type :=
| IsLeftChild (parent_item : Item) (sibling : subtree)
| IsRightChild (sibling : subtree) (parent_item : Item).

(** Modelled from the spec: a node handle, the class [Node] that
    [cursor.js] imports: its item, its two children and the chain of
    parent links up to the root. *)
Record Node : Type := mkNode {
  left : subtree;
  node_item : Item;
  right : subtree;
  parent : list link
}.

(** Modelled from the spec: the class [IntervalTree], as far as the cursor
    sees it: the subtree at its root, [nil_node] when the tree is empty. *)
Record IntervalTree : Type := mkTree { top : subtree }.

(** Modelled from the spec: "[root] - current root node of the tree, or
    none if empty". *)
Definition root (t : IntervalTree) : option Node :=
  match top t with
  | nil_node => None
  | Fork l it r => Some (mkNode l it r [])
  end.

(** Modelled from the spec: [new Node(interval)], "an ephemeral synthetic
    node/interval used only for the first positioning search": a node
    outside the tree, with the interval as key and no payload. *)
Definition new_Node (i : Interval) : Node :=
  mkNode nil_node (mkItem i JUndefined) nil_node [].

(** Modelled from the spec: "minimum-node-of-subtree": follow left
    children from the given node down to the last one. *)
Fixpoint leftmost (l : subtree) (it : Item) (r : subtree) (up : list link)
  : Node :=
  match l with
  | nil_node => mkNode nil_node it r up
  | Fork ll lit lr => leftmost ll lit lr (IsLeftChild it r :: up)
  end.

(** Modelled from the spec: [minimum_of(subtreeRoot) -> Node]. *)
Definition local_minimum (n : Node) : Node :=
  leftmost (left n) (node_item n) (right n) (parent n).

(** Modelled from the spec: "maximum-node-of-subtree": follow right
    children from the given node down to the last one. *)
Fixpoint rightmost (l : subtree) (it : Item) (r : subtree) (up : list link)
  : Node :=
  match r with
  | nil_node => mkNode l it nil_node up
  | Fork rl rit rr => rightmost rl rit rr (IsRightChild l it :: up)
  end.

(** Modelled from the spec: [maximum_of(subtreeRoot) -> Node]. *)
Definition local_maximum (n : Node) : Node :=
  rightmost (left n) (node_item n) (right n) (parent n).

(** Modelled from the spec: the climb of "successor-of-node" along the
    parent links: leave every parent the current subtree is the right
    child of; the first parent it is the left child of is the answer. *)
Fixpoint first_parent_from_left (below : subtree) (up : list link)
  : option Node :=
  match up with
  | [] => None
  | IsLeftChild pit sib :: up' => Some (mkNode below pit sib up')
  | IsRightChild sib pit :: up' =>
      first_parent_from_left (Fork sib pit below) up'
  end.

(** Modelled from the spec: "successor-of-node": "the next node in
    ascending key order relative to a given node, found via standard BST
    traversal using parent links": the minimum of the right subtree when
    there is one, the first parent reached from a left child otherwise. *)
Definition tree_successor (n : Node) : option Node :=
  match right n with
  | Fork rl rit rr =>
      Some (leftmost rl rit rr (IsRightChild (left n) (node_item n) :: parent n))
  | nil_node =>
      first_parent_from_left (Fork (left n) (node_item n) nil_node) (parent n)
  end.

(** Modelled from the spec: the mirror climb, for "predecessor-of-node". *)
Fixpoint first_parent_from_right (below : subtree) (up : list link)
  : option Node :=
  match up with
  | [] => None
  | IsRightChild sib pit :: up' => Some (mkNode sib pit below up')
  | IsLeftChild pit sib :: up' =>
      first_parent_from_right (Fork below pit sib) up'
  end.

(** Modelled from the spec: "predecessor-of-node", the mirror image of
    the successor. *)
Definition tree_precursor (n : Node) : option Node :=
  match left n with
  | Fork ll lit lr =>
      Some (rightmost ll lit lr (IsLeftChild (node_item n) (right n) :: parent n))
  | nil_node =>
      first_parent_from_right (Fork nil_node (node_item n) (right n)) (parent n)
  end.

(** Modelled from the spec: the descent of "nearest-node-at-or-after": "a
    search that returns the closest existing node whose key is >= a given
    target key".  A node whose key is below the target sends the search
    to the right; any other node is the best candidate so far and sends
    it to the left. *)
Fixpoint search_forward (k : Interval) (sub : subtree) (up : list link)
         (best : option Node) : option Node :=
  match sub with
  | nil_node => best
  | Fork l it r =>
      if less_than (key it) k
      then search_forward k r (IsRightChild l it :: up) best
      else search_forward k l (IsLeftChild it r :: up) (Some (mkNode l it r up))
  end.

(** Modelled from the spec: [nearest_at_or_after(root, key) -> Node | none],
    the search started at the root; none when there is no root. *)
Definition tree_search_nearest_forward (start : option Node) (search : Node)
  : option Node :=
  match start with
  | None => None
  | Some n =>
      search_forward (key (node_item search))
        (Fork (left n) (node_item n) (right n)) (parent n) None
  end.

(** Modelled from the spec: the descent of "nearest-node-at-or-before":
    the closest existing node whose key is <= the target key. *)
Fixpoint search_backward (k : Interval) (sub : subtree) (up : list link)
         (best : option Node) : option Node :=
  match sub with
  | nil_node => best
  | Fork l it r =>
      if less_than k (key it)
      then search_backward k l (IsLeftChild it r :: up) best
      else search_backward k r (IsRightChild l it :: up) (Some (mkNode l it r up))
  end.

(** Modelled from the spec: [nearest_at_or_before(root, key) -> Node | none],
    the search started at the root; none when there is no root. *)
Definition tree_search_nearest_backward (start : option Node) (search : Node)
  : option Node :=
  match start with
  | None => None
  | Some n =>
      search_backward (key (node_item search))
        (Fork (left n) (node_item n) (right n)) (parent n) None
  end.

(** *** Reading a tree as a sequence of entries *)

(** The entries of a subtree, left to right. *)
Fixpoint items (t : subtree) : list Item :=
  match t with
  | nil_node => []
  | Fork l it r => items l ++ it :: items r
  end.

(** The entries of the tree. *)
Definition entries (t : IntervalTree) : list Item := items (top t).

(** Modelled from the spec: the order that makes the tree "a binary search
    tree keyed by intervals": every key on the left of a node is below the
    node's key, every key on its right is above it.  Keys are distinct, as
    the "strictly ascending key order" of a traversal requires. *)
Fixpoint is_search_tree (t : subtree) : bool :=
  match t with
  | nil_node => true
  | Fork l it r =>
      forallb (fun x => less_than (key x) (key it)) (items l)
      && forallb (fun x => less_than (key it) (key x)) (items r)
      && is_search_tree l && is_search_tree r
  end.

(** The subtree a chain of parent links and the subtree below it stand
    for. *)
Fixpoint plug (below : subtree) (up : list link) : subtree :=
  match up with
  | [] => below
  | IsLeftChild pit sib :: up' => plug (Fork below pit sib) up'
  | IsRightChild sib pit :: up' => plug (Fork sib pit below) up'
  end.

(** The tree a node handle belongs to. *)
Definition whole (n : Node) : subtree :=
  plug (Fork (left n) (node_item n) (right n)) (parent n).

(** The entries before and after the subtree that hangs from a chain of
    parent links. *)
Fixpoint before (up : list link) : list Item :=
  match up with
  | [] => []
  | IsLeftChild _ _ :: up' => before up'
  | IsRightChild sib pit :: up' => before up' ++ items sib ++ [pit]
  end.

Fixpoint following (up : list link) : list Item :=
  match up with
  | [] => []
  | IsLeftChild pit sib :: up' => pit :: items sib ++ following up'
  | IsRightChild _ _ :: up' => following up'
  end.

(** The entries before and after a node. *)
Definition preceding (n : Node) : list Item :=
  before (parent n) ++ items (left n).

Definition succeeding (n : Node) : list Item :=
  items (right n) ++ following (parent n).

End TreeModel.

(** The model implements the interface of the tree.  The methods that work
    from a node alone ignore the tree they are called on, as methods that
    follow the links of the node do. *)
#[export] Instance TreeModel_ops
  : IntervalTreeOps TreeModel.IntervalTree TreeModel.Node := {|
  root := TreeModel.root;
  tree_successor := fun _ => TreeModel.tree_successor;
  tree_precursor := fun _ => TreeModel.tree_precursor;
  tree_search_nearest_forward := fun _ => TreeModel.tree_search_nearest_forward;
  tree_search_nearest_backward := fun _ => TreeModel.tree_search_nearest_backward;
  local_minimum := fun _ => TreeModel.local_minimum;
  local_maximum := fun _ => TreeModel.local_maximum;
  new_Node := TreeModel.new_Node;
  item := TreeModel.node_item
|}.

Module TM := TreeModel.

(** Strictly ascending by key. *)
Definition ascending (l : list Item) : Prop :=
  StronglySorted (fun a b => less_than (key a) (key b) = true) l.

(** Strictly descending by key. *)
Definition descending (l : list Item) : Prop :=
  StronglySorted (fun a b => less_than (key b) (key a) = true) l.

(** What the caller sees of a reached node: the mapped entry. *)
Definition mapped (f : jsval -> Interval -> jsval) (e : Item) : jsval :=
  f (value e) (key e).

Definition mapped_or_null (f : jsval -> Interval -> jsval) (r : option Item)
  : jsval :=
  match r with
  | Some e => mapped f e
  | None => JNull
  end.

(** [r] is the entry of [es] nearest to [k] among those whose key is at or
    after [k]; [None] when every key of [es] is below [k]. *)
Definition nearest_at_or_after (es : list Item) (k : Interval)
           (r : option Item) : Prop :=
  match r with
  | Some e =>
      In e es /\ less_than (key e) k = false
      /\ forall e', In e' es -> less_than (key e') k = false ->
                    e' = e \/ less_than (key e) (key e') = true
  | None => forall e', In e' es -> less_than (key e') k = true
  end.

(** [r] is the entry of [es] nearest to [k] among those whose key is at or
    before [k]; [None] when every key of [es] is above [k]. *)
Definition nearest_at_or_before (es : list Item) (k : Interval)
           (r : option Item) : Prop :=
  match r with
  | Some e =>
      In e es /\ less_than k (key e) = false
      /\ forall e', In e' es -> less_than k (key e') = false ->
                    e' = e \/ less_than (key e') (key e) = true
  | None => forall e', In e' es -> less_than k (key e') = true
  end.

(** *** Sample data *)

Definition point (z : Z) : Interval := mkInterval z z.

Definition entry (z : Z) (v : jsval) : Item := mkItem (point z) v.

Definition leaf_of (it : Item) : TreeModel.subtree :=
  TreeModel.Fork TreeModel.nil_node it TreeModel.nil_node.

(** The tree holding [3,3] and [7,7]. *)
Definition tree_3_7 : TreeModel.IntervalTree :=
  TreeModel.mkTree
    (TreeModel.Fork TreeModel.nil_node (entry 3 (JStr "three"))
                    (leaf_of (entry 7 (JStr "seven")))).

(** A tree with six entries, [4,4] at the root. *)
Definition tree_six : TreeModel.IntervalTree :=
  TreeModel.mkTree
    (TreeModel.Fork
       (TreeModel.Fork (leaf_of (entry 1 (JNum 10))) (entry 2 (JNum 20))
                       (leaf_of (entry 3 (JNum 30))))
       (entry 4 (JNum 40))
       (TreeModel.Fork TreeModel.nil_node (entry 6 (JNum 60))
                       (leaf_of (entry 9 (JNum 90))))).

Definition empty_tree : TreeModel.IntervalTree :=
  TreeModel.mkTree TreeModel.nil_node.

(** The mapper that hands back the payload. *)
Definition value_of : jsval -> Interval -> jsval := fun v _ => v.

(** The mapper that hands back the key. *)
Definition key_of : jsval -> Interval -> jsval := fun _ k => JInterval k.

(** A tree with one entry, stored with the payload [null]. *)
Definition tree_null_payload : TreeModel.IntervalTree :=
  TreeModel.mkTree (leaf_of (entry 3 JNull)).

(* ================================================================== *)
(** ** The cursor against any tree

    The statements of this part hold for every implementation of the
    interface of the tree: they depend on the text of [next] and [prev]
    alone. *)

Section CursorFacts.

Context {T N : Type} `{IntervalTreeOps T N}.

(** The whole effect of one call, branch by branch. *)
Lemma call_outcome (m : method) (c : Cursor T N) :
  call m c =
  {| returned := match reached m c with
                 | Some n => outputMapperFn c (value (item n)) (key (item n))
                 | None => JNull
                 end;
     this_after := {| tree := tree c;
                      search_node := match current_node c with
                                     | Some _ => search_node c
                                     | None => None
                                     end;
                      outputMapperFn := outputMapperFn c;
                      current_node := reached m c |};
     trace := delegated m c ++
              match reached m c with
              | Some n => [Call_outputMapperFn (value (item n)) (key (item n))]
              | None => []
              end |}.
Proof.
  destruct m; destruct c as [tr [s|] f [cur|]];
    cbv [call next prev bind read ret assign_search_node assign_current_node
         call_tree call_outputMapperFn reached delegated step_of search_of
         extremity_of step_event search_event extremity_event
         returned this_after trace
         tree search_node outputMapperFn current_node app];
    repeat match goal with
           | |- context [match ?x with Some _ => _ | None => _ end] =>
               destruct x eqn:?
           end; try reflexivity; try congruence.
Qed.

Lemma current_after_call (m : method) (c : Cursor T N) :
  current_node (this_after (call m c)) = reached m c.
Proof. rewrite call_outcome. reflexivity. Qed.

Lemma tree_after_call (m : method) (c : Cursor T N) :
  tree (this_after (call m c)) = tree c.
Proof. rewrite call_outcome. reflexivity. Qed.

Lemma mapper_after_call (m : method) (c : Cursor T N) :
  outputMapperFn (this_after (call m c)) = outputMapperFn c.
Proof. rewrite call_outcome. reflexivity. Qed.

Lemma search_after_call (m : method) (c : Cursor T N) :
  search_node (this_after (call m c)) =
  match current_node c with Some _ => search_node c | None => None end.
Proof. rewrite call_outcome. reflexivity. Qed.

Lemma tree_after (ms : list method) (c : Cursor T N) :
  tree (after ms c) = tree c.
Proof.
  revert c. induction ms as [|m ms IH]; intro c; cbn [after].
  - reflexivity.
  - rewrite IH. apply tree_after_call.
Qed.

Lemma mapper_after (ms : list method) (c : Cursor T N) :
  outputMapperFn (after ms c) = outputMapperFn c.
Proof.
  revert c. induction ms as [|m ms IH]; intro c; cbn [after].
  - reflexivity.
  - rewrite IH. apply mapper_after_call.
Qed.

(** A cursor without seek target keeps none. *)
Lemma no_search_after (ms : list method) (c : Cursor T N) :
  search_node c = None -> search_node (after ms c) = None.
Proof.
  revert c. induction ms as [|m ms IH]; intros c Hc; cbn [after].
  - exact Hc.
  - apply IH. rewrite search_after_call, Hc. now destruct (current_node c).
Qed.

(** A cursor whose position is none has no seek target left after any
    call. *)
Lemma search_consumed (ms : list method) (c : Cursor T N) :
  current_node c = None -> ms <> [] -> search_node (after ms c) = None.
Proof.
  intros Hc Hms. destruct ms as [|m ms]; [congruence|]. cbn [after].
  apply no_search_after. now rewrite search_after_call, Hc.
Qed.

End CursorFacts.
(* ================================================================== *)
(** ** The order of the keys *)

Lemma less_than_irrefl (a : Interval) : less_than a a = false.
Proof.
  unfold less_than.
  rewrite !Z.ltb_irrefl, Z.eqb_refl. reflexivity.
Qed.

Lemma less_than_spec (a b : Interval) :
  less_than a b = true <->
  low a < low b \/ (low a = low b /\ high a < high b).
Proof.
  unfold less_than.
  rewrite orb_true_iff, andb_true_iff, !Z.ltb_lt, Z.eqb_eq. tauto.
Qed.

Lemma less_than_trans (a b c : Interval) :
  less_than a b = true -> less_than b c = true -> less_than a c = true.
Proof. rewrite !less_than_spec. lia. Qed.

Lemma less_than_asym (a b : Interval) :
  less_than a b = true -> less_than b a = false.
Proof.
  intro Hab. destruct (less_than b a) eqn:Hba; [|reflexivity].
  apply less_than_spec in Hab, Hba. lia.
Qed.

(** The order is total: two keys neither of which is below the other are
    the same interval. *)
Lemma less_than_total (a b : Interval) :
  less_than a b = false -> less_than b a = false -> a = b.
Proof.
  intros Hab Hba.
  assert (Ha : ~ (low a < low b \/ (low a = low b /\ high a < high b)))
    by (rewrite <- less_than_spec; congruence).
  assert (Hb : ~ (low b < low a \/ (low b = low a /\ high b < high a)))
    by (rewrite <- less_than_spec; congruence).
  destruct a as [la ha], b as [lb hb]; cbn in *.
  f_equal; lia.
Qed.

(* ================================================================== *)
(** ** The tree model: nodes, their tree and their neighbours *)

Lemma items_plug (up : list TM.link) (below : TM.subtree) :
  TM.items (TM.plug below up)
  = TM.before up ++ TM.items below ++ TM.following up.
Proof.
  revert below. induction up as [|[pit sib|sib pit] up IH]; intro below; cbn.
  - now rewrite app_nil_r.
  - rewrite IH. cbn. now rewrite <- !app_assoc.
  - rewrite IH. cbn. rewrite <- !app_assoc. reflexivity.
Qed.

(** A node splits the entries of its tree in those before it, its own, and
    those after it. *)
Lemma items_whole (n : TM.Node) :
  TM.items (TM.whole n)
  = TM.preceding n ++ TM.node_item n :: TM.succeeding n.
Proof.
  unfold TM.whole, TM.preceding, TM.succeeding. rewrite items_plug. cbn.
  now rewrite <- !app_assoc.
Qed.

Lemma leftmost_spec (l : TM.subtree) (it : Item) (r : TM.subtree)
      (up : list TM.link) :
  TM.whole (TM.leftmost l it r up) = TM.plug (TM.Fork l it r) up
  /\ TM.preceding (TM.leftmost l it r up) = TM.before up
  /\ TM.node_item (TM.leftmost l it r up) :: TM.succeeding (TM.leftmost l it r up)
     = TM.items (TM.Fork l it r) ++ TM.following up
  /\ TM.left (TM.leftmost l it r up) = TM.nil_node.
Proof.
  revert it r up. induction l as [|ll IHl lit lr _]; intros it r up.
  - cbn. unfold TM.preceding, TM.succeeding. cbn.
    now rewrite app_nil_r.
  - cbn [TM.leftmost].
    destruct (IHl lit lr (TM.IsLeftChild it r :: up)) as (Hw & Hp & Hs & Hl).
    repeat split; try assumption.
    rewrite Hs. cbn. rewrite <- !app_assoc. reflexivity.
Qed.

Lemma rightmost_spec (r : TM.subtree) (l : TM.subtree) (it : Item)
      (up : list TM.link) :
  TM.whole (TM.rightmost l it r up) = TM.plug (TM.Fork l it r) up
  /\ TM.succeeding (TM.rightmost l it r up) = TM.following up
  /\ TM.preceding (TM.rightmost l it r up) ++ [TM.node_item (TM.rightmost l it r up)]
     = TM.before up ++ TM.items (TM.Fork l it r)
  /\ TM.right (TM.rightmost l it r up) = TM.nil_node.
Proof.
  revert l it up. induction r as [|rl _ rit rr IHr]; intros l it up.
  - cbn. unfold TM.preceding, TM.succeeding. cbn.
    now rewrite <- !app_assoc.
  - cbn [TM.rightmost].
    destruct (IHr rl rit (TM.IsRightChild l it :: up)) as (Hw & Hs & Hp & Hr).
    repeat split; try assumption.
    rewrite Hp. cbn. rewrite <- !app_assoc. cbn. reflexivity.
Qed.

Lemma first_parent_from_left_spec (up : list TM.link) (below : TM.subtree) :
  match TM.first_parent_from_left below up with
  | None => TM.following up = []
  | Some n =>
      TM.whole n = TM.plug below up
      /\ TM.preceding n = TM.before up ++ TM.items below
      /\ TM.node_item n :: TM.succeeding n = TM.following up
  end.
Proof.
  revert below. induction up as [|[pit sib|sib pit] up IH]; intro below; cbn.
  - reflexivity.
  - unfold TM.whole, TM.preceding, TM.succeeding. cbn. auto.
  - specialize (IH (TM.Fork sib pit below)).
    destruct (TM.first_parent_from_left (TM.Fork sib pit below) up) as [n|];
      [|exact IH].
    destruct IH as (Hw & Hp & Hs). repeat split; try assumption.
    rewrite Hp. cbn. now rewrite <- !app_assoc.
Qed.

Lemma first_parent_from_right_spec (up : list TM.link) (below : TM.subtree) :
  match TM.first_parent_from_right below up with
  | None => TM.before up = []
  | Some n =>
      TM.whole n = TM.plug below up
      /\ TM.succeeding n = TM.items below ++ TM.following up
      /\ TM.preceding n ++ [TM.node_item n] = TM.before up
  end.
Proof.
  revert below. induction up as [|[pit sib|sib pit] up IH]; intro below; cbn.
  - reflexivity.
  - specialize (IH (TM.Fork below pit sib)).
    destruct (TM.first_parent_from_right (TM.Fork below pit sib) up) as [n|];
      [|exact IH].
    destruct IH as (Hw & Hs & Hp). repeat split; try assumption.
    rewrite Hs. cbn. now rewrite <- !app_assoc.
  - unfold TM.whole, TM.preceding, TM.succeeding. cbn.
    rewrite <- !app_assoc. auto.
Qed.

(** The successor of a node is the node right after it in the entries of
    the same tree; there is none exactly when nothing comes after. *)
Lemma tree_successor_spec (n : TM.Node) :
  match TM.tree_successor n with
  | None => TM.succeeding n = []
  | Some s =>
      TM.whole s = TM.whole n
      /\ TM.preceding s = TM.preceding n ++ [TM.node_item n]
      /\ TM.succeeding n = TM.node_item s :: TM.succeeding s
  end.
Proof.
  destruct n as [l it r up]. unfold TM.tree_successor. cbn.
  destruct r as [|rl rit rr].
  - pose proof (first_parent_from_left_spec up (TM.Fork l it TM.nil_node)) as Hc.
    destruct (TM.first_parent_from_left (TM.Fork l it TM.nil_node) up) as [s|].
    + destruct Hc as (Hw & Hp & Hs).
      unfold TM.whole, TM.preceding, TM.succeeding in *. cbn in *.
      repeat split; try assumption.
      * rewrite Hp. now rewrite <- !app_assoc.
      * now rewrite Hs.
    + unfold TM.succeeding. cbn. exact Hc.
  - destruct (leftmost_spec rl rit rr (TM.IsRightChild l it :: up))
      as (Hw & Hp & Hs & _).
    unfold TM.whole, TM.preceding, TM.succeeding in *. cbn in *.
    repeat split.
    + rewrite Hw. reflexivity.
    + rewrite Hp. now rewrite <- !app_assoc.
    + rewrite Hs. reflexivity.
Qed.

(** The predecessor of a node is the node right before it. *)
Lemma tree_precursor_spec (n : TM.Node) :
  match TM.tree_precursor n with
  | None => TM.preceding n = []
  | Some p =>
      TM.whole p = TM.whole n
      /\ TM.succeeding p = TM.node_item n :: TM.succeeding n
      /\ TM.preceding n = TM.preceding p ++ [TM.node_item p]
  end.
Proof.
  destruct n as [l it r up]. unfold TM.tree_precursor. cbn.
  destruct l as [|ll lit lr].
  - pose proof (first_parent_from_right_spec up (TM.Fork TM.nil_node it r)) as Hc.
    destruct (TM.first_parent_from_right (TM.Fork TM.nil_node it r) up) as [p|].
    + destruct Hc as (Hw & Hs & Hp).
      unfold TM.whole, TM.preceding, TM.succeeding in *. cbn in *.
      repeat split; try assumption.
      now rewrite app_nil_r.
    + unfold TM.preceding. cbn. now rewrite app_nil_r.
  - destruct (rightmost_spec lr ll lit (TM.IsLeftChild it r :: up))
      as (Hw & Hs & Hp & _).
    unfold TM.whole, TM.preceding, TM.succeeding in *. cbn in *.
    repeat split.
    + rewrite Hw. reflexivity.
    + rewrite Hs. reflexivity.
    + rewrite Hp. reflexivity.
Qed.

(** *** Going forth and back *)

Lemma climb_from_leftmost (l : TM.subtree) (it : Item) (r : TM.subtree)
      (up : list TM.link) :
  TM.first_parent_from_right
    (TM.Fork TM.nil_node (TM.node_item (TM.leftmost l it r up))
             (TM.right (TM.leftmost l it r up)))
    (TM.parent (TM.leftmost l it r up))
  = TM.first_parent_from_right (TM.Fork l it r) up.
Proof.
  revert it r up. induction l as [|ll IHl lit lr _]; intros it r up.
  - reflexivity.
  - cbn [TM.leftmost]. rewrite IHl. reflexivity.
Qed.

Lemma climb_from_rightmost (r : TM.subtree) (l : TM.subtree) (it : Item)
      (up : list TM.link) :
  TM.first_parent_from_left
    (TM.Fork (TM.left (TM.rightmost l it r up))
             (TM.node_item (TM.rightmost l it r up)) TM.nil_node)
    (TM.parent (TM.rightmost l it r up))
  = TM.first_parent_from_left (TM.Fork l it r) up.
Proof.
  revert l it up. induction r as [|rl _ rit rr IHr]; intros l it up.
  - reflexivity.
  - cbn [TM.rightmost]. rewrite IHr. reflexivity.
Qed.

Lemma descend_after_climb_left (up : list TM.link) (bl : TM.subtree)
      (bit : Item) (br : TM.subtree) (n : TM.Node) :
  TM.first_parent_from_left (TM.Fork bl bit br) up = Some n ->
  exists xl xit xr,
    TM.left n = TM.Fork xl xit xr
    /\ TM.rightmost xl xit xr
         (TM.IsLeftChild (TM.node_item n) (TM.right n) :: TM.parent n)
       = TM.rightmost bl bit br up.
Proof.
  revert bl bit br.
  induction up as [|[pit sib|sib pit] up IH]; intros bl bit br Hc; cbn in Hc.
  - discriminate.
  - injection Hc as <-. cbn. eauto.
  - destruct (IH _ _ _ Hc) as (xl & xit & xr & Hl & Hr).
    exists xl, xit, xr. split; [assumption|]. rewrite Hr. reflexivity.
Qed.

Lemma descend_after_climb_right (up : list TM.link) (bl : TM.subtree)
      (bit : Item) (br : TM.subtree) (n : TM.Node) :
  TM.first_parent_from_right (TM.Fork bl bit br) up = Some n ->
  exists xl xit xr,
    TM.right n = TM.Fork xl xit xr
    /\ TM.leftmost xl xit xr
         (TM.IsRightChild (TM.left n) (TM.node_item n) :: TM.parent n)
       = TM.leftmost bl bit br up.
Proof.
  revert bl bit br.
  induction up as [|[pit sib|sib pit] up IH]; intros bl bit br Hc; cbn in Hc.
  - discriminate.
  - destruct (IH _ _ _ Hc) as (xl & xit & xr & Hl & Hr).
    exists xl, xit, xr. split; [assumption|]. rewrite Hr. reflexivity.
  - injection Hc as <-. cbn. eauto.
Qed.

(** The predecessor of the successor of a node is the node itself. *)
Lemma precursor_of_successor (n s : TM.Node) :
  TM.tree_successor n = Some s -> TM.tree_precursor s = Some n.
Proof.
  destruct n as [l it r up]. unfold TM.tree_successor. cbn.
  destruct r as [|rl rit rr]; intro Hs.
  - destruct (descend_after_climb_left _ _ _ _ Hs) as (xl & xit & xr & Hl & Hr).
    unfold TM.tree_precursor. rewrite Hl, Hr. reflexivity.
  - injection Hs as <-. unfold TM.tree_precursor.
    destruct (leftmost_spec rl rit rr (TM.IsRightChild l it :: up))
      as (_ & _ & _ & Hl).
    rewrite Hl, climb_from_leftmost. reflexivity.
Qed.

(** The successor of the predecessor of a node is the node itself. *)
Lemma successor_of_precursor (n p : TM.Node) :
  TM.tree_precursor n = Some p -> TM.tree_successor p = Some n.
Proof.
  destruct n as [l it r up]. unfold TM.tree_precursor. cbn.
  destruct l as [|ll lit lr]; intro Hp.
  - destruct (descend_after_climb_right _ _ _ _ Hp) as (xl & xit & xr & Hr & Hl).
    unfold TM.tree_successor. rewrite Hr, Hl. reflexivity.
  - injection Hp as <-. unfold TM.tree_successor.
    destruct (rightmost_spec lr ll lit (TM.IsLeftChild it r :: up))
      as (_ & _ & _ & Hr).
    rewrite Hr, climb_from_rightmost. reflexivity.
Qed.

(* ================================================================== *)
(** ** Search trees and sorted entries *)

Lemma ascending_app (l1 l2 : list Item) (x : Item) :
  ascending l1 -> ascending l2 ->
  Forall (fun a => less_than (key a) (key x) = true) l1 ->
  Forall (fun b => less_than (key x) (key b) = true) l2 ->
  ascending (l1 ++ x :: l2).
Proof.
  unfold ascending. intros H1 H2 Hl Hr.
  induction H1 as [|a l1 Hs IH Ha]; cbn.
  - constructor; assumption.
  - inversion Hl as [|? ? Hax Hl']; subst.
    constructor; [auto|].
    apply Forall_app. split; [assumption|].
    constructor; [assumption|].
    eapply Forall_impl; [|exact Hr].
    cbn. intros b Hb. eapply less_than_trans; eassumption.
Qed.

Lemma ascending_app_inv (l1 l2 : list Item) (x : Item) :
  ascending (l1 ++ x :: l2) ->
  Forall (fun a => less_than (key a) (key x) = true) l1
  /\ Forall (fun b => less_than (key x) (key b) = true) l2.
Proof.
  unfold ascending. induction l1 as [|a l1 IH]; cbn; intro Hs.
  - inversion Hs; subst. auto.
  - inversion Hs as [|? ? Hs' Ha]; subst.
    destruct (IH Hs') as [Hl Hr]. split; [|assumption].
    constructor; [|assumption].
    rewrite Forall_app in Ha. destruct Ha as [_ Ha].
    now inversion Ha.
Qed.

(** The entries of a search tree, read left to right, are strictly
    ascending. *)
Lemma search_tree_ascending (t : TM.subtree) :
  TM.is_search_tree t = true -> ascending (TM.items t).
Proof.
  induction t as [|l IHl it r IHr]; cbn; intro Hst.
  - constructor.
  - rewrite !andb_true_iff in Hst. destruct Hst as [[[Hl Hr] Hsl] Hsr].
    rewrite forallb_forall in Hl, Hr.
    apply ascending_app; auto; apply Forall_forall; auto.
Qed.

Lemma descending_snoc (l : list Item) (x : Item) :
  descending l ->
  Forall (fun b => less_than (key x) (key b) = true) l ->
  descending (l ++ [x]).
Proof.
  unfold descending. intros Hs Hx.
  induction Hs as [|b l Hs IH Hb]; cbn.
  - constructor; constructor.
  - inversion Hx; subst. constructor; [auto|].
    apply Forall_app. split; [assumption|]. constructor; [assumption|constructor].
Qed.

Lemma ascending_rev (l : list Item) : ascending l -> descending (rev l).
Proof.
  intro Hs. induction Hs as [|a l Hs IH Ha]; cbn.
  - constructor.
  - apply descending_snoc; [exact IH|].
    apply Forall_forall. intros b Hb. apply in_rev in Hb.
    rewrite Forall_forall in Ha. auto.
Qed.

(* ================================================================== *)
(** ** The nearest-neighbour searches of the model *)

(** The forward search stops at the first node, in ascending order, whose
    key is not below the target. *)
Lemma search_forward_spec (k : Interval) (sub : TM.subtree) :
  forall (up : list TM.link) (best : option TM.Node),
    TM.is_search_tree sub = true ->
    Forall (fun e => less_than (key e) k = true) (TM.before up) ->
    match best with
    | None => TM.following up = []
    | Some b =>
        TM.whole b = TM.plug sub up
        /\ TM.preceding b = TM.before up ++ TM.items sub
        /\ less_than (key (TM.node_item b)) k = false
    end ->
    match TM.search_forward k sub up best with
    | None =>
        Forall (fun e => less_than (key e) k = true) (TM.items (TM.plug sub up))
    | Some n =>
        TM.whole n = TM.plug sub up
        /\ Forall (fun e => less_than (key e) k = true) (TM.preceding n)
        /\ less_than (key (TM.node_item n)) k = false
    end.
Proof.
  induction sub as [|l IHl it r IHr]; intros up best Hst Hbefore Hbest.
  - cbn [TM.search_forward]. destruct best as [b|].
    + destruct Hbest as (Hw & Hp & Hk). repeat split; try assumption.
      rewrite Hp. cbn. now rewrite app_nil_r.
    + rewrite items_plug, Hbest. cbn. now rewrite app_nil_r.
  - cbn [TM.search_forward]. cbn in Hst.
    rewrite !andb_true_iff in Hst. destruct Hst as [[[Hl Hr] Hsl] Hsr].
    rewrite forallb_forall in Hl.
    destruct (less_than (key it) k) eqn:Hit.
    + specialize (IHr (TM.IsRightChild l it :: up) best Hsr).
      cbn [TM.plug TM.before TM.following] in IHr. apply IHr.
      * rewrite !Forall_app. repeat split; [assumption| |].
        -- apply Forall_forall. intros e He.
           eapply less_than_trans; [apply Hl; exact He|exact Hit].
        -- constructor; [exact Hit|constructor].
      * destruct best as [b|]; [|exact Hbest].
        destruct Hbest as (Hw & Hp & Hk). repeat split; try assumption.
        rewrite Hp. cbn. now rewrite <- !app_assoc.
    + specialize (IHl (TM.IsLeftChild it r :: up)
                      (Some (TM.mkNode l it r up)) Hsl).
      cbn [TM.plug TM.before TM.following] in IHl. apply IHl.
      * exact Hbefore.
      * repeat split. exact Hit.
Qed.

(** The backward search stops at the last node, in ascending order, whose
    key is not above the target. *)
Lemma search_backward_spec (k : Interval) (sub : TM.subtree) :
  forall (up : list TM.link) (best : option TM.Node),
    TM.is_search_tree sub = true ->
    Forall (fun e => less_than k (key e) = true) (TM.following up) ->
    match best with
    | None => TM.before up = []
    | Some b =>
        TM.whole b = TM.plug sub up
        /\ TM.succeeding b = TM.items sub ++ TM.following up
        /\ less_than k (key (TM.node_item b)) = false
    end ->
    match TM.search_backward k sub up best with
    | None =>
        Forall (fun e => less_than k (key e) = true) (TM.items (TM.plug sub up))
    | Some n =>
        TM.whole n = TM.plug sub up
        /\ Forall (fun e => less_than k (key e) = true) (TM.succeeding n)
        /\ less_than k (key (TM.node_item n)) = false
    end.
Proof.
  induction sub as [|l IHl it r IHr]; intros up best Hst Hafter Hbest.
  - cbn [TM.search_backward]. destruct best as [b|].
    + destruct Hbest as (Hw & Hs & Hk). repeat split; try assumption.
      rewrite Hs. exact Hafter.
    + rewrite items_plug, Hbest. exact Hafter.
  - cbn [TM.search_backward]. cbn in Hst.
    rewrite !andb_true_iff in Hst. destruct Hst as [[[Hl Hr] Hsl] Hsr].
    rewrite forallb_forall in Hr.
    destruct (less_than k (key it)) eqn:Hit.
    + specialize (IHl (TM.IsLeftChild it r :: up) best Hsl).
      cbn [TM.plug TM.before TM.following] in IHl. apply IHl.
      * constructor; [exact Hit|]. rewrite Forall_app. split; [|assumption].
        apply Forall_forall. intros e He.
        eapply less_than_trans; [exact Hit|apply Hr; exact He].
      * destruct best as [b|]; [|exact Hbest].
        destruct Hbest as (Hw & Hs & Hk). repeat split; try assumption.
        rewrite Hs. cbn. now rewrite <- !app_assoc.
    + specialize (IHr (TM.IsRightChild l it :: up)
                      (Some (TM.mkNode l it r up)) Hsr).
      cbn [TM.plug TM.before TM.following] in IHr. apply IHr.
      * exact Hafter.
      * repeat split. exact Hit.
Qed.

(* ================================================================== *)
(** ** Properties of the cursor over any tree *)

Section CursorProperties.

Context {T N : Type} `{IntervalTreeOps T N}.

Lemma delegated_are_tree_calls (m : method) (c : Cursor T N) :
  filter is_tree_call (delegated m c) = delegated m c
  /\ filter is_mapper_call (delegated m c) = [].
Proof.
  unfold delegated.
  destruct m, (current_node c), (search_node c), (root (tree c));
    cbn; auto.
Qed.

Lemma tree_calls_of_call (m : method) (c : Cursor T N) :
  filter is_tree_call (trace (call m c)) = delegated m c.
Proof.
  rewrite call_outcome. cbn [trace]. rewrite filter_app.
  destruct (delegated_are_tree_calls m c) as [-> _].
  destruct (reached m c); cbn; now rewrite app_nil_r.
Qed.

Lemma mapper_calls_of_call (m : method) (c : Cursor T N) :
  filter is_mapper_call (trace (call m c)) =
  match reached m c with
  | Some n => [Call_outputMapperFn (value (item n)) (key (item n))]
  | None => []
  end.
Proof.
  rewrite call_outcome. cbn [trace]. rewrite filter_app.
  destruct (delegated_are_tree_calls m c) as [_ ->].
  destruct (reached m c); reflexivity.
Qed.

Lemma returned_of_call (m : method) (c : Cursor T N) :
  returned (call m c) =
  mapped_or_null (outputMapperFn c) (entry_reached (call m c)).
Proof.
  unfold entry_reached. rewrite call_outcome. cbn.
  destruct (reached m c); reflexivity.
Qed.

(** What the calls return is what the mapper makes of the entries they
    reach. *)
Lemma results_visited (ms : list method) (c : Cursor T N) :
  results ms c = map (mapped_or_null (outputMapperFn c)) (visited ms c).
Proof.
  unfold results, visited. revert c.
  induction ms as [|m ms IH]; intro c; cbn [outcomes map].
  - reflexivity.
  - rewrite IH, mapper_after_call, returned_of_call. reflexivity.
Qed.

Lemma search_calls_of_call (m : method) (c : Cursor T N) :
  filter is_search_call (trace (call m c)) =
  match current_node c, search_node c with
  | None, Some s => [search_event m (root (tree c)) s]
  | _, _ => []
  end.
Proof.
  rewrite call_outcome. cbn [trace]. rewrite filter_app. unfold delegated.
  destruct m, (current_node c), (search_node c), (root (tree c)),
    (reached _ c); reflexivity.
Qed.

(** C4.  A cursor built with a seek interval holds its seek target and no
    position before the first call; the first call, [next()] or [prev()],
    runs the one search for the target and drops it; after any calls at all
    the cursor holds no seek target (so never a target together with a
    position) and no later call searches again; and a call made while the
    cursor is anchored at a node delegates to the successor or predecessor
    of that node and to nothing else. *)
Theorem seek_target_consumed_once
        (t : T) (i : Interval) (f : jsval -> Interval -> jsval) :
  (search_node (new_Cursor t (Some i) f) = Some (new_Node i)
   /\ current_node (new_Cursor t (Some i) f) = None)
  /\ (forall first : method,
         filter is_search_call (trace (call first (new_Cursor t (Some i) f)))
         = [search_event first (root t) (new_Node i)]
         /\ search_node (this_after (call first (new_Cursor t (Some i) f)))
            = None)
  /\ (forall (first : method) (more : list method) (m : method),
         search_node (after (first :: more) (new_Cursor t (Some i) f)) = None
         /\ filter is_search_call
              (trace (call m (after (first :: more) (new_Cursor t (Some i) f))))
            = [])
  /\ (forall (ms : list method) (m : method) (n : N),
         current_node (after ms (new_Cursor t (Some i) f)) = Some n ->
         filter is_tree_call
           (trace (call m (after ms (new_Cursor t (Some i) f))))
         = [step_event m n]
         /\ current_node
              (this_after (call m (after ms (new_Cursor t (Some i) f))))
            = step_of m t n).
Proof.
  split; [split; reflexivity|].
  split; [|split].
  - intro first. split.
    + rewrite search_calls_of_call. reflexivity.
    + rewrite search_after_call. reflexivity.
  - intros first more m.
    assert (Hnone : search_node (after (first :: more) (new_Cursor t (Some i) f))
                    = None)
      by (apply search_consumed; [reflexivity|discriminate]).
    split; [exact Hnone|].
    rewrite search_calls_of_call, Hnone.
    now destruct (current_node _).
  - intros ms m n Hn. split.
    + rewrite tree_calls_of_call. unfold delegated. now rewrite Hn.
    + rewrite current_after_call. unfold reached.
      rewrite Hn, tree_after. reflexivity.
Qed.

(** C7.  A call that reaches a node calls the output mapper exactly once,
    with the value and the key of the item of that node, and returns what
    the mapper returned; a call that reaches no node does not call the
    mapper and returns [null]. *)
Theorem mapper_called_once_with_reached_entry
        (m : method) (c : Cursor T N) :
  match current_node (this_after (call m c)) with
  | Some n =>
      filter is_mapper_call (trace (call m c))
      = [Call_outputMapperFn (value (item n)) (key (item n))]
      /\ returned (call m c) = outputMapperFn c (value (item n)) (key (item n))
  | None =>
      filter is_mapper_call (trace (call m c)) = []
      /\ returned (call m c) = JNull
  end.
Proof.
  rewrite mapper_calls_of_call, current_after_call.
  rewrite call_outcome. cbn [returned].
  destruct (reached m c); split; reflexivity.
Qed.

(** C8.  Calls of [next()] and [prev()] assign nothing but the position
    and the seek target of the cursor: after any sequence of calls the
    cursor refers to the same, unchanged tree and to the same mapper; its
    seek target is the one it had or has been dropped. *)
Theorem calls_change_only_position_and_seek_target
        (ms : list method) (c : Cursor T N) :
  exists (seek' position' : option N),
    after ms c = {| tree := tree c; search_node := seek';
                    outputMapperFn := outputMapperFn c;
                    current_node := position' |}
    /\ (seek' = search_node c \/ seek' = None).
Proof.
  revert c. induction ms as [|m ms IH]; intro c; cbn [after].
  - exists (search_node c), (current_node c). split; [|now left].
    now destruct c.
  - destruct (IH (this_after (call m c))) as (s' & p' & Heq & Hs).
    rewrite tree_after_call, mapper_after_call in Heq.
    exists s', p'. split; [exact Heq|].
    rewrite search_after_call in Hs.
    destruct (current_node c); tauto.
Qed.

(** C9, as the code has it.  A call delegates to the tree at most once: to
    the successor or predecessor when the cursor is anchored, else to the
    nearest-neighbour search when it holds a seek target, else to the
    minimum or maximum when the tree has a root; when there is neither
    position, seek target nor root it calls no method of the tree.  The
    node so obtained becomes the position, and the call returns its mapped
    item, the mapper being called once, or [null] without calling the
    mapper when there is no such node. *)
Theorem each_call_delegates_at_most_once (m : method) (c : Cursor T N) :
  filter is_tree_call (trace (call m c))
  = match current_node c, search_node c, root (tree c) with
    | Some n, _, _ => [step_event m n]
    | None, Some s, _ => [search_event m (root (tree c)) s]
    | None, None, Some rt => [extremity_event m rt]
    | None, None, None => []
    end
  /\ (List.length (filter is_tree_call (trace (call m c))) <= 1)%nat
  /\ (filter is_tree_call (trace (call m c)) = [] <->
      current_node c = None /\ search_node c = None /\ root (tree c) = None)
  /\ current_node (this_after (call m c))
     = match current_node c, search_node c, root (tree c) with
       | Some n, _, _ => step_of m (tree c) n
       | None, Some s, _ => search_of m (tree c) s
       | None, None, Some rt => Some (extremity_of m (tree c) rt)
       | None, None, None => None
       end
  /\ match current_node (this_after (call m c)) with
     | Some n =>
         filter is_mapper_call (trace (call m c))
         = [Call_outputMapperFn (value (item n)) (key (item n))]
         /\ returned (call m c)
            = outputMapperFn c (value (item n)) (key (item n))
     | None =>
         filter is_mapper_call (trace (call m c)) = []
         /\ returned (call m c) = JNull
     end.
Proof.
  rewrite tree_calls_of_call, mapper_calls_of_call, current_after_call.
  rewrite call_outcome. cbn [returned]. unfold delegated, reached.
  destruct (current_node c) as [n|], (search_node c) as [s|],
    (root (tree c)) as [rt|]; cbn;
    repeat split; try reflexivity; try lia; try discriminate;
    try (intros (? & ? & ?); discriminate);
    match goal with
    | |- match ?x with Some _ => _ | None => _ end =>
        destruct x; split; reflexivity
    end.
Qed.

(** C10, as the code has it.  When a call leaves the cursor without a
    position it returns [null]; when it leaves the cursor at a node it
    returns what the mapper makes of that node's item.  So a value other
    than [null] is returned only with the cursor anchored at a node, and
    [null] is returned exactly when the position is none provided the
    mapper does not itself return [null] for the item reached. *)
Theorem null_when_no_position (m : method) (c : Cursor T N) :
  (current_node (this_after (call m c)) = None -> returned (call m c) = JNull)
  /\ (forall n, current_node (this_after (call m c)) = Some n ->
                returned (call m c)
                = outputMapperFn c (value (item n)) (key (item n)))
  /\ (returned (call m c) <> JNull ->
      current_node (this_after (call m c)) <> None)
  /\ ((forall n, current_node (this_after (call m c)) = Some n ->
                 outputMapperFn c (value (item n)) (key (item n)) <> JNull) ->
      (returned (call m c) = JNull <->
       current_node (this_after (call m c)) = None)).
Proof.
  rewrite current_after_call, call_outcome. cbn [returned].
  destruct (reached m c) as [n|].
  - split; [discriminate|]. split; [intros n' [= <-]; reflexivity|].
    split; [discriminate|]. intro Hf. split; [|discriminate].
    intro Hr. exfalso. exact (Hf n eq_refl Hr).
  - split; [reflexivity|]. split; [discriminate|].
    split; [congruence|]. intros _. split; reflexivity.
Qed.

End CursorProperties.

(* ================================================================== *)
(** ** The cursor over the tree model *)

Lemma model_reached (m : method) (c : Cursor TM.IntervalTree TM.Node) :
  reached m c =
  match current_node c with
  | Some n =>
      match m with
      | Next => TM.tree_successor n
      | Prev => TM.tree_precursor n
      end
  | None =>
      match search_node c with
      | Some s =>
          match m with
          | Next => TM.tree_search_nearest_forward (TM.root (tree c)) s
          | Prev => TM.tree_search_nearest_backward (TM.root (tree c)) s
          end
      | None =>
          match TM.root (tree c) with
          | Some rt =>
              Some match m with
                   | Next => TM.local_minimum rt
                   | Prev => TM.local_maximum rt
                   end
          | None => None
          end
      end
  end.
Proof.
  unfold reached. destruct m, (current_node c), (search_node c); cbn;
    try reflexivity; destruct (TM.root (tree c)); reflexivity.
Qed.

Lemma visited_cons (m : method) (ms : list method)
      (c : Cursor TM.IntervalTree TM.Node) :
  visited (m :: ms) c
  = option_map TM.node_item (reached m c) :: visited ms (this_after (call m c)).
Proof.
  unfold visited. cbn [outcomes map]. unfold entry_reached at 1.
  rewrite current_after_call. reflexivity.
Qed.

(** From a node, [next()] walks through the entries after it, one per call,
    and then finds nothing. *)
Lemma walk_forward (rest : list Item) :
  forall (n : TM.Node) (c : Cursor TM.IntervalTree TM.Node),
    current_node c = Some n -> TM.succeeding n = rest ->
    visited (repeat Next (S (List.length rest))) c = map Some rest ++ [None].
Proof.
  induction rest as [|e rest IH]; intros n c Hc Hs;
    cbn [List.length repeat]; rewrite visited_cons;
    assert (Hr : reached Next c = TM.tree_successor n)
      by (now rewrite model_reached, Hc);
    rewrite Hr;
    pose proof (tree_successor_spec n) as Hn;
    destruct (TM.tree_successor n) as [s|].
  - destruct Hn as (_ & _ & Hn). congruence.
  - reflexivity.
  - destruct Hn as (_ & _ & Hn). rewrite Hs in Hn. injection Hn as -> Hrest.
    cbn [option_map map app]. f_equal.
    apply (IH s); [|now symmetry].
    now rewrite current_after_call.
  - congruence.
Qed.

(** From a node, [prev()] walks back through the entries before it. *)
Lemma walk_backward (rest : list Item) :
  forall (n : TM.Node) (c : Cursor TM.IntervalTree TM.Node),
    current_node c = Some n -> rev (TM.preceding n) = rest ->
    visited (repeat Prev (S (List.length rest))) c = map Some rest ++ [None].
Proof.
  induction rest as [|e rest IH]; intros n c Hc Hs;
    cbn [List.length repeat]; rewrite visited_cons;
    assert (Hr : reached Prev c = TM.tree_precursor n)
      by (now rewrite model_reached, Hc);
    rewrite Hr;
    pose proof (tree_precursor_spec n) as Hn;
    destruct (TM.tree_precursor n) as [p|].
  - destruct Hn as (_ & _ & Hn). rewrite Hn, rev_app_distr in Hs. discriminate.
  - reflexivity.
  - destruct Hn as (_ & _ & Hn). rewrite Hn, rev_app_distr in Hs.
    cbn in Hs. injection Hs as He Hrest. subst e.
    cbn [option_map map app]. f_equal.
    apply (IH p); [|assumption].
    now rewrite current_after_call.
  - rewrite Hn in Hs. discriminate.
Qed.

(** The first [next()] of a cursor without position and seek target
    reaches the first entry of the tree, the first [prev()] the last. *)
Lemma minimum_of_root (l : TM.subtree) (it : Item) (r : TM.subtree) :
  TM.node_item (TM.leftmost l it r [])
  :: TM.succeeding (TM.leftmost l it r []) = TM.items (TM.Fork l it r).
Proof.
  destruct (leftmost_spec l it r []) as (_ & _ & Hs & _).
  rewrite Hs. cbn. now rewrite app_nil_r.
Qed.

Lemma maximum_of_root (l : TM.subtree) (it : Item) (r : TM.subtree) :
  TM.preceding (TM.rightmost l it r [])
  ++ [TM.node_item (TM.rightmost l it r [])] = TM.items (TM.Fork l it r).
Proof.
  destruct (rightmost_spec r l it []) as (_ & _ & Hp & _).
  rewrite Hp. reflexivity.
Qed.

Lemma fresh_walk_forward (t : TM.IntervalTree) (c : Cursor TM.IntervalTree TM.Node) :
  tree c = t -> current_node c = None -> search_node c = None ->
  visited (repeat Next (S (List.length (TM.entries t)))) c
  = map Some (TM.entries t) ++ [None].
Proof.
  intros Ht Hc Hs. unfold TM.entries.
  assert (Hr : reached Next c
               = match TM.root t with
                 | Some rt => Some (TM.local_minimum rt)
                 | None => None
                 end) by (now rewrite model_reached, Hc, Hs, Ht).
  unfold TM.root in Hr. destruct (TM.top t) as [|l it r].
  - cbn [TM.items List.length repeat]. rewrite visited_cons, Hr. reflexivity.
  - cbn [TM.local_minimum TM.left TM.node_item TM.right TM.parent
         TM.local_minimum] in Hr. unfold TM.local_minimum in Hr. cbn in Hr.
    rewrite <- (minimum_of_root l it r).
    cbn [List.length repeat]. rewrite visited_cons, Hr.
    cbn [option_map map app]. f_equal.
    apply (walk_forward (n := TM.leftmost l it r [])); [|reflexivity].
    now rewrite current_after_call.
Qed.

Lemma fresh_walk_backward (t : TM.IntervalTree) (c : Cursor TM.IntervalTree TM.Node) :
  tree c = t -> current_node c = None -> search_node c = None ->
  visited (repeat Prev (S (List.length (TM.entries t)))) c
  = map Some (rev (TM.entries t)) ++ [None].
Proof.
  intros Ht Hc Hs. unfold TM.entries.
  assert (Hr : reached Prev c
               = match TM.root t with
                 | Some rt => Some (TM.local_maximum rt)
                 | None => None
                 end) by (now rewrite model_reached, Hc, Hs, Ht).
  unfold TM.root in Hr. destruct (TM.top t) as [|l it r].
  - cbn [TM.items List.length repeat]. rewrite visited_cons, Hr. reflexivity.
  - unfold TM.local_maximum in Hr. cbn in Hr.
    rewrite <- (maximum_of_root l it r), rev_app_distr, length_app.
    cbn [rev app List.length]. rewrite Nat.add_1_r.
    cbn [repeat]. rewrite visited_cons, Hr.
    cbn [option_map map app]. f_equal.
    rewrite <- length_rev.
    apply (walk_backward (n := TM.rightmost l it r [])); [|reflexivity].
    now rewrite current_after_call.
Qed.

Lemma mapped_walk (f : jsval -> Interval -> jsval) (es : list Item) :
  map (mapped_or_null f) (map Some es ++ [None]) = map (mapped f) es ++ [JNull].
Proof. rewrite map_app, map_map. reflexivity. Qed.

(** C1.  Over a search tree with n entries, the first n calls of [next()]
    on a cursor built without interval reach the entries of the tree one
    after the other in strictly ascending key order, returning each one
    mapped, and call n+1 reaches nothing and returns [null]; [prev()] does
    the same in strictly descending key order. *)
Theorem full_walk_in_key_order
        (t : TM.IntervalTree) (f : jsval -> Interval -> jsval) :
  TM.is_search_tree (TM.top t) = true ->
  (visited (repeat Next (S (List.length (TM.entries t)))) (new_Cursor t None f)
   = map Some (TM.entries t) ++ [None]
   /\ results (repeat Next (S (List.length (TM.entries t)))) (new_Cursor t None f)
      = map (mapped f) (TM.entries t) ++ [JNull]
   /\ ascending (TM.entries t))
  /\ (visited (repeat Prev (S (List.length (TM.entries t)))) (new_Cursor t None f)
      = map Some (rev (TM.entries t)) ++ [None]
      /\ results (repeat Prev (S (List.length (TM.entries t)))) (new_Cursor t None f)
         = map (mapped f) (rev (TM.entries t)) ++ [JNull]
      /\ descending (rev (TM.entries t))).
Proof.
  intro Hst.
  assert (Hasc : ascending (TM.entries t)) by now apply search_tree_ascending.
  assert (Hn : visited (repeat Next (S (List.length (TM.entries t))))
                       (new_Cursor t None f)
               = map Some (TM.entries t) ++ [None])
    by now apply fresh_walk_forward.
  assert (Hp : visited (repeat Prev (S (List.length (TM.entries t))))
                       (new_Cursor t None f)
               = map Some (rev (TM.entries t)) ++ [None])
    by now apply fresh_walk_backward.
  repeat split; try assumption.
  - rewrite results_visited, Hn. apply mapped_walk.
  - rewrite results_visited, Hp. apply mapped_walk.
  - now apply ascending_rev.
Qed.

(** The first entry of an ascending sequence is its least, the last its
    greatest. *)
Lemma ascending_head_least (lo : Item) (rest : list Item) :
  ascending (lo :: rest) ->
  forall e, In e (lo :: rest) -> e = lo \/ less_than (key lo) (key e) = true.
Proof.
  intros Hs e [<-|He]; [now left|right].
  inversion Hs as [|? ? _ Hlo]; subst.
  rewrite Forall_forall in Hlo. auto.
Qed.

Lemma ascending_last_greatest (hi : Item) (pre : list Item) :
  ascending (pre ++ [hi]) ->
  forall e, In e (pre ++ [hi]) -> e = hi \/ less_than (key e) (key hi) = true.
Proof.
  intros Hs e He. apply ascending_app_inv in Hs. destruct Hs as [Hpre _].
  apply in_app_or in He. destruct He as [He|[<-|[]]]; [right|now left].
  rewrite Forall_forall in Hpre. auto.
Qed.

(** C2.  Over a non-empty search tree, once some calls have left the
    cursor without a position (a step found no further node), the
    following [next()] reaches and returns the entry with the least key
    and the following [prev()] the entry with the greatest key. *)
Theorem restart_after_exhaustion
        (t : TM.IntervalTree) (seek : option Interval)
        (f : jsval -> Interval -> jsval) (ms : list method) :
  TM.is_search_tree (TM.top t) = true ->
  TM.entries t <> [] ->
  ms <> [] ->
  current_node (after ms (new_Cursor t seek f)) = None ->
  exists lo hi : Item,
    (In lo (TM.entries t)
     /\ (forall e, In e (TM.entries t) ->
                   e = lo \/ less_than (key lo) (key e) = true)
     /\ entry_reached (next (after ms (new_Cursor t seek f))) = Some lo
     /\ returned (next (after ms (new_Cursor t seek f))) = mapped f lo)
    /\ (In hi (TM.entries t)
        /\ (forall e, In e (TM.entries t) ->
                      e = hi \/ less_than (key e) (key hi) = true)
        /\ entry_reached (prev (after ms (new_Cursor t seek f))) = Some hi
        /\ returned (prev (after ms (new_Cursor t seek f))) = mapped f hi).
Proof.
  intros Hst Hne Hms Hnone.
  set (c := after ms (new_Cursor t seek f)) in *.
  assert (Hs : search_node c = None)
    by (apply search_consumed; [reflexivity|assumption]).
  assert (Ht : tree c = t) by apply tree_after.
  assert (Hf : outputMapperFn c = f) by apply mapper_after.
  apply search_tree_ascending in Hst.
  unfold TM.entries in *. destruct (TM.top t) as [|l it r] eqn:Htop;
    [cbn in Hne; congruence|].
  assert (Hroot : TM.root t = Some (TM.mkNode l it r []))
    by (unfold TM.root; now rewrite Htop).
  exists (TM.node_item (TM.leftmost l it r [])),
         (TM.node_item (TM.rightmost l it r [])).
  split.
  - assert (Hr : reached Next c = Some (TM.leftmost l it r []))
      by (now rewrite model_reached, Hnone, Hs, Ht, Hroot).
    pose proof (minimum_of_root l it r) as Hmin.
    rewrite <- Hmin in Hst |- *.
    split; [now left|]. split; [now apply ascending_head_least|].
    change next with (call (T:=TM.IntervalTree) Next).
    unfold entry_reached. rewrite returned_of_call. unfold entry_reached.
    rewrite current_after_call, Hr, Hf. split; reflexivity.
  - assert (Hr : reached Prev c = Some (TM.rightmost l it r []))
      by (now rewrite model_reached, Hnone, Hs, Ht, Hroot).
    pose proof (maximum_of_root l it r) as Hmax.
    rewrite <- Hmax in Hst |- *.
    split; [apply in_or_app; right; now left|].
    split; [now apply ascending_last_greatest|].
    change prev with (call (T:=TM.IntervalTree) Prev).
    unfold entry_reached. rewrite returned_of_call. unfold entry_reached.
    rewrite current_after_call, Hr, Hf. split; reflexivity.
Qed.

(** *** Seeking *)

Lemma forward_search_nearest (t : TM.IntervalTree) (k : Interval) :
  TM.is_search_tree (TM.top t) = true ->
  nearest_at_or_after (TM.entries t) k
    (option_map TM.node_item
       (TM.tree_search_nearest_forward (TM.root t) (TM.new_Node k))).
Proof.
  intro Hst. unfold TM.root, TM.entries.
  destruct (TM.top t) as [|l it r]; [intros e []|].
  cbn [TM.tree_search_nearest_forward TM.new_Node TM.node_item key
       TM.left TM.right TM.parent].
  pose proof (search_forward_spec k (TM.Fork l it r) [] None Hst
                (Forall_nil _) eq_refl) as Hspec.
  apply search_tree_ascending in Hst.
  destruct (TM.search_forward k (TM.Fork l it r) [] None) as [n|];
    cbn [option_map nearest_at_or_after TM.plug] in *.
  - destruct Hspec as (Hw & Hpre & Hk).
    pose proof (items_whole n) as Hitems. rewrite Hw in Hitems.
    rewrite Hitems in Hst |- *.
    split; [apply in_or_app; right; now left|]. split; [exact Hk|].
    intros e' He' Hk'. apply ascending_app_inv in Hst. destruct Hst as [_ Hpost].
    apply in_app_or in He'. destruct He' as [He'|[<-|He']].
    + rewrite Forall_forall in Hpre. rewrite (Hpre _ He') in Hk'. discriminate.
    + now left.
    + right. rewrite Forall_forall in Hpost. auto.
  - rewrite Forall_forall in Hspec. exact Hspec.
Qed.

Lemma backward_search_nearest (t : TM.IntervalTree) (k : Interval) :
  TM.is_search_tree (TM.top t) = true ->
  nearest_at_or_before (TM.entries t) k
    (option_map TM.node_item
       (TM.tree_search_nearest_backward (TM.root t) (TM.new_Node k))).
Proof.
  intro Hst. unfold TM.root, TM.entries.
  destruct (TM.top t) as [|l it r]; [intros e []|].
  cbn [TM.tree_search_nearest_backward TM.new_Node TM.node_item key
       TM.left TM.right TM.parent].
  pose proof (search_backward_spec k (TM.Fork l it r) [] None Hst
                (Forall_nil _) eq_refl) as Hspec.
  apply search_tree_ascending in Hst.
  destruct (TM.search_backward k (TM.Fork l it r) [] None) as [n|];
    cbn [option_map nearest_at_or_before TM.plug] in *.
  - destruct Hspec as (Hw & Hpost & Hk).
    pose proof (items_whole n) as Hitems. rewrite Hw in Hitems.
    rewrite Hitems in Hst |- *.
    split; [apply in_or_app; right; now left|]. split; [exact Hk|].
    intros e' He' Hk'. apply ascending_app_inv in Hst. destruct Hst as [Hpre _].
    apply in_app_or in He'. destruct He' as [He'|[<-|He']].
    + right. rewrite Forall_forall in Hpre. auto.
    + now left.
    + rewrite Forall_forall in Hpost. rewrite (Hpost _ He') in Hk'. discriminate.
  - rewrite Forall_forall in Hspec. exact Hspec.
Qed.

Lemma first_call_of_seek (m : method) (t : TM.IntervalTree) (k : Interval)
      (f : jsval -> Interval -> jsval) :
  entry_reached (call m (new_Cursor t (Some k) f))
  = option_map TM.node_item
      match m with
      | Next => TM.tree_search_nearest_forward (TM.root t) (TM.new_Node k)
      | Prev => TM.tree_search_nearest_backward (TM.root t) (TM.new_Node k)
      end.
Proof.
  unfold entry_reached. rewrite current_after_call, model_reached.
  destruct m; reflexivity.
Qed.

(** C3.  Over a search tree, the first [next()] of a cursor seeded with an
    interval reaches and returns the entry nearest to the target among
    those at or after it, the first [prev()] the entry nearest among those
    at or before it (nothing and [null] when there is no such entry).  In
    particular, seeded with [5,5] over a tree holding exactly [3,3] and
    [7,7], the first [next()] returns the entry of [7,7] and the first
    [prev()] the entry of [3,3]. *)
Theorem first_call_reaches_nearest
        (t : TM.IntervalTree) (k : Interval) (f : jsval -> Interval -> jsval) :
  TM.is_search_tree (TM.top t) = true ->
  (nearest_at_or_after (TM.entries t) k
     (entry_reached (next (new_Cursor t (Some k) f)))
   /\ returned (next (new_Cursor t (Some k) f))
      = mapped_or_null f (entry_reached (next (new_Cursor t (Some k) f))))
  /\ (nearest_at_or_before (TM.entries t) k
        (entry_reached (prev (new_Cursor t (Some k) f)))
      /\ returned (prev (new_Cursor t (Some k) f))
         = mapped_or_null f (entry_reached (prev (new_Cursor t (Some k) f))))
  /\ (k = point 5 -> map key (TM.entries t) = [point 3; point 7] ->
      exists e3 e7 : Item,
        TM.entries t = [e3; e7]
        /\ entry_reached (next (new_Cursor t (Some k) f)) = Some e7
        /\ returned (next (new_Cursor t (Some k) f)) = mapped f e7
        /\ entry_reached (prev (new_Cursor t (Some k) f)) = Some e3
        /\ returned (prev (new_Cursor t (Some k) f)) = mapped f e3).
Proof.
  intro Hst.
  pose proof (forward_search_nearest t k Hst) as Hfwd.
  pose proof (backward_search_nearest t k Hst) as Hbwd.
  rewrite <- (first_call_of_seek Next t k f) in Hfwd.
  rewrite <- (first_call_of_seek Prev t k f) in Hbwd.
  cbn [call] in Hfwd, Hbwd.
  pose proof (returned_of_call Next (new_Cursor t (Some k) f)) as Hrn.
  pose proof (returned_of_call Prev (new_Cursor t (Some k) f)) as Hrp.
  cbn [call new_Cursor outputMapperFn] in Hrn, Hrp.
  split; [split; assumption|]. split; [split; assumption|].
  intros -> Hkeys.
  destruct (TM.entries t) as [|e3 [|e7 [|? ?]]]; try discriminate.
  injection Hkeys as H3 H7.
  exists e3, e7. split; [reflexivity|].
  rewrite Hrn, Hrp.
  destruct (entry_reached (next (new_Cursor t (Some (point 5)) f))) as [a|];
    destruct (entry_reached (prev (new_Cursor t (Some (point 5)) f))) as [b|];
    cbn [nearest_at_or_after nearest_at_or_before] in Hfwd, Hbwd.
  - destruct Hfwd as (Ha & Hka & _), Hbwd as (Hb & Hkb & _).
    destruct Ha as [<-|[<-|[]]]; [rewrite H3 in Hka; discriminate|].
    destruct Hb as [<-|[<-|[]]]; [|rewrite H7 in Hkb; discriminate].
    repeat split.
  - specialize (Hbwd e3 (or_introl eq_refl)). rewrite H3 in Hbwd. discriminate.
  - specialize (Hfwd e7 (or_intror (or_introl eq_refl))).
    rewrite H7 in Hfwd. discriminate.
  - specialize (Hbwd e3 (or_introl eq_refl)). rewrite H3 in Hbwd. discriminate.
Qed.

(** *** The empty tree *)

Lemma nothing_reached_in_empty_tree
      (m : method) (c : Cursor TM.IntervalTree TM.Node) :
  TM.root (tree c) = None -> current_node c = None -> reached m c = None.
Proof.
  intros Hroot Hc. rewrite model_reached, Hc, Hroot.
  destruct m, (search_node c); reflexivity.
Qed.

Lemma empty_tree_outcomes (ms : list method) :
  forall c : Cursor TM.IntervalTree TM.Node,
    TM.root (tree c) = None -> current_node c = None ->
    Forall (fun o => returned o = JNull /\ current_node (this_after o) = None)
           (outcomes ms c).
Proof.
  induction ms as [|m ms IH]; intros c Hroot Hc; cbn [outcomes].
  - constructor.
  - pose proof (nothing_reached_in_empty_tree m c Hroot Hc) as Hr.
    constructor.
    + rewrite returned_of_call. unfold entry_reached.
      rewrite current_after_call, Hr. split; reflexivity.
    + apply IH.
      * now rewrite tree_after_call.
      * now rewrite current_after_call.
Qed.

Lemma length_outcomes (ms : list method) (c : Cursor TM.IntervalTree TM.Node) :
  List.length (outcomes ms c) = List.length ms.
Proof.
  revert c. induction ms as [|m ms IH]; intro c; cbn;
    [reflexivity|now rewrite IH].
Qed.

(** C5.  A cursor bound to a tree without root, built with or without a
    seek interval, returns [null] from every call of [next()] and [prev()],
    whatever their number and order, and is left without a position by each
    of them. *)
Theorem empty_tree_returns_null
        (t : TM.IntervalTree) (seek : option Interval)
        (f : jsval -> Interval -> jsval) (ms : list method) :
  TM.root t = None ->
  Forall (fun o => returned o = JNull /\ current_node (this_after o) = None)
         (outcomes ms (new_Cursor t seek f))
  /\ results ms (new_Cursor t seek f) = repeat JNull (List.length ms).
Proof.
  intro Hroot.
  assert (Hall : Forall (fun o => returned o = JNull
                                  /\ current_node (this_after o) = None)
                        (outcomes ms (new_Cursor t seek f)))
    by (apply empty_tree_outcomes; [exact Hroot|reflexivity]).
  split; [exact Hall|].
  unfold results.
  rewrite <- (length_outcomes ms (new_Cursor t seek f)).
  induction Hall as [|o os [Ho _] _ IH]; cbn; [reflexivity|].
  now rewrite Ho, IH.
Qed.

(** *** Going forth and back with the cursor *)

Lemma oscillation_rounds (a n : TM.Node) (k : nat) :
  TM.tree_successor a = Some n ->
  forall c : Cursor TM.IntervalTree TM.Node,
    current_node c = Some a ->
    visited (alternate k) c
    = List.concat (repeat [Some (TM.node_item n); Some (TM.node_item a)] k)
    /\ current_node (after (alternate k) c) = Some a.
Proof.
  intro Hsucc. induction k as [|k IH]; intros c Hc.
  - cbn. auto.
  - cbn [alternate repeat List.concat after].
    assert (H1 : reached Next c = Some n)
      by (now rewrite model_reached, Hc).
    assert (Hc1 : current_node (this_after (call Next c)) = Some n)
      by (now rewrite current_after_call).
    assert (H2 : reached Prev (this_after (call Next c)) = Some a)
      by (rewrite model_reached, Hc1; now apply precursor_of_successor).
    assert (Hc2 : current_node
                    (this_after (call Prev (this_after (call Next c))))
                  = Some a)
      by (now rewrite current_after_call).
    destruct (IH _ Hc2) as [Hv Ha].
    rewrite !visited_cons, H1, H2, Hv. split; [reflexivity|exact Ha].
Qed.

(** C6.  A [prev()] that follows a [next()] which reached the node [n]
    steps from [n]: it delegates to the predecessor of [n] and reaches and
    returns that predecessor's entry.  When the cursor was anchored at a
    node [a] before the [next()], that predecessor is [a], whose entry
    comes right before the entry of [n] among the entries of the tree; and
    any number of rounds of [next()] then [prev()] reach [n], [a], [n],
    [a], ... and leave the cursor at [a]. *)
Theorem next_then_prev_oscillates
        (c : Cursor TM.IntervalTree TM.Node) (n : TM.Node) :
  current_node (this_after (next c)) = Some n ->
  (filter is_tree_call (trace (prev (this_after (next c))))
   = [Call_tree_precursor n]
   /\ entry_reached (prev (this_after (next c)))
      = option_map TM.node_item (TM.tree_precursor n)
   /\ returned (prev (this_after (next c)))
      = mapped_or_null (outputMapperFn c)
          (option_map TM.node_item (TM.tree_precursor n)))
  /\ (forall a : TM.Node,
         current_node c = Some a ->
         TM.tree_precursor n = Some a
         /\ (exists pre post,
                TM.items (TM.whole a)
                = pre ++ TM.node_item a :: TM.node_item n :: post)
         /\ returned (next c) = mapped (outputMapperFn c) (TM.node_item n)
         /\ returned (prev (this_after (next c)))
            = mapped (outputMapperFn c) (TM.node_item a)
         /\ forall k : nat,
             visited (alternate k) c
             = List.concat (repeat [Some (TM.node_item n); Some (TM.node_item a)] k)
             /\ results (alternate k) c
                = List.concat (repeat [mapped (outputMapperFn c) (TM.node_item n);
                                  mapped (outputMapperFn c) (TM.node_item a)] k)
             /\ current_node (after (alternate k) c) = Some a).
Proof.
  intro Hn.
  change next with (call (T:=TM.IntervalTree) Next) in *.
  change prev with (call (T:=TM.IntervalTree) Prev) in *.
  assert (Hp : reached Prev (this_after (call Next c)) = TM.tree_precursor n)
    by (now rewrite model_reached, Hn).
  assert (He : entry_reached (call Prev (this_after (call Next c)))
               = option_map TM.node_item (TM.tree_precursor n))
    by (unfold entry_reached; now rewrite current_after_call, Hp).
  assert (Hret : returned (call Prev (this_after (call Next c)))
                 = mapped_or_null (outputMapperFn c)
                     (option_map TM.node_item (TM.tree_precursor n)))
    by (now rewrite returned_of_call, mapper_after_call, He).
  split.
  - split; [|split; assumption].
    rewrite tree_calls_of_call. unfold delegated. now rewrite Hn.
  - intros a Ha.
    assert (Hsucc : TM.tree_successor a = Some n)
      by (rewrite current_after_call, model_reached, Ha in Hn; exact Hn).
    pose proof (precursor_of_successor _ Hsucc) as Hback.
    split; [exact Hback|]. split.
    { pose proof (tree_successor_spec a) as Hspec. rewrite Hsucc in Hspec.
      destruct Hspec as (_ & _ & Hs).
      exists (TM.preceding a), (TM.succeeding n).
      now rewrite items_whole, Hs. }
    split.
    { rewrite returned_of_call. unfold entry_reached. now rewrite Hn. }
    split.
    { rewrite Hret, Hback. reflexivity. }
    intro k. destruct (oscillation_rounds k Hsucc c Ha) as [Hv Hc].
    split; [exact Hv|]. split; [|exact Hc].
    rewrite results_visited, Hv. clear.
    induction k as [|k IH]; [reflexivity|].
    cbn [repeat List.concat app map]. now rewrite IH.
Qed.

(* ================================================================== *)
(** ** Where the code departs from the stated property *)

(** C9, as stated, fails: the first [next()] of a cursor built without
    interval over the empty tree calls no method of the tree at all. *)
Lemma empty_tree_call_delegates_to_nothing :
  trace (next (new_Cursor empty_tree None value_of)) = []
  /\ List.length
       (filter is_tree_call (trace (next (new_Cursor empty_tree None value_of))))
     <> 1%nat.
Proof. split; [reflexivity|]. cbn. discriminate. Qed.

(** C10, as stated, fails: over a tree whose one entry carries the payload
    [null], with the mapper that hands back the payload, [next()] returns
    [null] while it leaves the cursor anchored at that entry's node. *)
Lemma null_returned_at_a_node :
  returned (next (new_Cursor tree_null_payload None value_of)) = JNull
  /\ entry_reached (next (new_Cursor tree_null_payload None value_of))
     = Some (entry 3 JNull)
  /\ ~ (returned (next (new_Cursor tree_null_payload None value_of)) = JNull
        <-> current_node
              (this_after (next (new_Cursor tree_null_payload None value_of)))
            = None).
Proof.
  split; [reflexivity|]. split; [reflexivity|].
  intros [Hnull _]. specialize (Hnull eq_refl). discriminate Hnull.
Qed.

(* ================================================================== *)
(** ** The theorems at work on sample trees *)

Lemma full_walk_in_key_order_witness :
  TM.is_search_tree (TM.top tree_six) = true
  /\ results (repeat Next 7) (new_Cursor tree_six None value_of)
     = [JNum 10; JNum 20; JNum 30; JNum 40; JNum 60; JNum 90; JNull]
  /\ results (repeat Prev 7) (new_Cursor tree_six None value_of)
     = [JNum 90; JNum 60; JNum 40; JNum 30; JNum 20; JNum 10; JNull].
Proof.
  split; [reflexivity|].
  destruct (@full_walk_in_key_order tree_six value_of eq_refl)
    as [(_ & Hnext & _) (_ & Hprev & _)].
  split; [exact Hnext|exact Hprev].
Defined.

Lemma restart_after_exhaustion_witness :
  (TM.is_search_tree (TM.top tree_3_7) = true
   /\ TM.entries tree_3_7 <> []
   /\ [Next; Next; Next] <> []
   /\ current_node (after [Next; Next; Next] (new_Cursor tree_3_7 None key_of))
      = None)
  /\ returned (next (after [Next; Next; Next] (new_Cursor tree_3_7 None key_of)))
     = JInterval (point 3)
  /\ returned (prev (after [Next; Next; Next] (new_Cursor tree_3_7 None key_of)))
     = JInterval (point 7).
Proof.
  assert (Hne : TM.entries tree_3_7 <> []) by discriminate.
  assert (Hms : [Next; Next; Next] <> []) by discriminate.
  split; [repeat split; assumption|].
  destruct (@restart_after_exhaustion tree_3_7 None key_of [Next; Next; Next]
              eq_refl Hne Hms eq_refl)
    as (lo & hi & (_ & _ & Hlo & Hrlo) & (_ & _ & Hhi & Hrhi)).
  injection Hlo as <-. injection Hhi as <-.
  split; [exact Hrlo|exact Hrhi].
Defined.

Lemma first_call_reaches_nearest_witness :
  TM.is_search_tree (TM.top tree_3_7) = true
  /\ returned (next (new_Cursor tree_3_7 (Some (point 5)) key_of))
     = JInterval (point 7)
  /\ returned (prev (new_Cursor tree_3_7 (Some (point 5)) key_of))
     = JInterval (point 3).
Proof.
  split; [reflexivity|].
  destruct (@first_call_reaches_nearest tree_3_7 (point 5) key_of eq_refl)
    as (_ & _ & Hexample).
  destruct (Hexample eq_refl eq_refl) as (e3 & e7 & He & _ & Hn & _ & Hp).
  injection He as <- <-.
  split; [exact Hn|exact Hp].
Defined.

Lemma empty_tree_returns_null_witness :
  TM.root empty_tree = None
  /\ results [Next; Prev; Prev; Next] (new_Cursor empty_tree (Some (point 5)) key_of)
     = [JNull; JNull; JNull; JNull].
Proof.
  split; [reflexivity|].
  exact (proj2 (@empty_tree_returns_null empty_tree (Some (point 5)) key_of
                  [Next; Prev; Prev; Next] eq_refl)).
Defined.

(** A cursor anchored at [3,3] in the tree of six entries: [next()]
    reaches the node of [4,4], the root, and two rounds go forth and
    back. *)
Lemma next_then_prev_oscillates_witness :
  current_node
    (this_after (next (after [Next] (new_Cursor tree_six (Some (point 3)) value_of))))
  = TM.tree_search_nearest_forward (TM.root tree_six) (TM.new_Node (point 4))
  /\ results [Next; Prev; Next; Prev]
       (after [Next] (new_Cursor tree_six (Some (point 3)) value_of))
     = [JNum 40; JNum 30; JNum 40; JNum 30].
Proof.
  split; [reflexivity|].
  assert (Hn : current_node
                 (this_after
                    (next (after [Next]
                             (new_Cursor tree_six (Some (point 3)) value_of))))
               = TM.tree_search_nearest_forward (TM.root tree_six)
                   (TM.new_Node (point 4))) by reflexivity.
  destruct (@next_then_prev_oscillates _ _ Hn) as (_ & Hanchored).
  destruct (Hanchored _ eq_refl) as (_ & _ & _ & _ & Hrounds).
  exact (proj1 (proj2 (Hrounds 2%nat))).
Defined.

(** A seeded cursor over the tree of six entries: the seek lands on [6,6],
    the walk runs off the end, and the call after that starts again from
    the minimum. *)
Example seek_walk_and_restart :
  results [Next; Next; Next; Next; Next]
          (new_Cursor tree_six (Some (point 5)) value_of)
  = [JNum 60; JNum 90; JNull; JNum 10; JNum 20].
Proof. reflexivity. Qed.

(** The calls one [next()] makes on a seeded cursor: one search from the
    root, then the mapper on the item found. *)
Example trace_of_a_seek :
  trace (next (new_Cursor tree_3_7 (Some (point 5)) key_of))
  = [Call_tree_search_nearest_forward (TM.root tree_3_7) (TM.new_Node (point 5));
     Call_outputMapperFn (JStr "seven") (point 7)].
Proof. reflexivity. Qed.

(* ================================================================== *)
(** ** Further properties of the cursor over any tree *)

Section CursorFurther.

Context {T N : Type} `{IntervalTreeOps T N}.

Lemma after_snoc (ms : list method) (m : method) (c : Cursor T N) :
  after (ms ++ [m]) c = this_after (call m (after ms c)).
Proof.
  revert c. induction ms as [|m' ms IH]; intro c; cbn [after app].
  - reflexivity.
  - apply IH.
Qed.

Lemma outcomes_append (ms1 ms2 : list method) (c : Cursor T N) :
  outcomes (ms1 ++ ms2) c = outcomes ms1 c ++ outcomes ms2 (after ms1 c).
Proof.
  revert c. induction ms1 as [|m ms1 IH]; intro c; cbn [outcomes after app].
  - reflexivity.
  - now rewrite IH.
Qed.

Lemma results_append (ms1 ms2 : list method) (c : Cursor T N) :
  results (ms1 ++ ms2) c = results ms1 c ++ results ms2 (after ms1 c).
Proof. unfold results. rewrite outcomes_append. apply map_app. Qed.

Lemma visited_append (ms1 ms2 : list method) (c : Cursor T N) :
  visited (ms1 ++ ms2) c = visited ms1 c ++ visited ms2 (after ms1 c).
Proof. unfold visited. rewrite outcomes_append. apply map_app. Qed.

(** A cursor is its four fields. *)
Lemma cursor_eq (c1 c2 : Cursor T N) :
  tree c1 = tree c2 -> search_node c1 = search_node c2 ->
  outputMapperFn c1 = outputMapperFn c2 -> current_node c1 = current_node c2 ->
  c1 = c2.
Proof.
  destruct c1, c2. cbn. intros -> -> -> ->. reflexivity.
Qed.

(** What a call reaches and what it asks of the tree depend on the tree,
    the seek target and the position, not on the mapper. *)
Lemma reached_without_mapper (m : method) (c1 c2 : Cursor T N) :
  tree c1 = tree c2 -> search_node c1 = search_node c2 ->
  current_node c1 = current_node c2 ->
  reached m c1 = reached m c2 /\ delegated m c1 = delegated m c2.
Proof.
  unfold reached, delegated. intros -> -> ->. split; reflexivity.
Qed.

Lemma walk_without_mapper (ms : list method) :
  forall c1 c2 : Cursor T N,
    tree c1 = tree c2 -> search_node c1 = search_node c2 ->
    current_node c1 = current_node c2 ->
    visited ms c1 = visited ms c2
    /\ map (fun o => filter is_tree_call (trace o)) (outcomes ms c1)
       = map (fun o => filter is_tree_call (trace o)) (outcomes ms c2)
    /\ current_node (after ms c1) = current_node (after ms c2)
    /\ search_node (after ms c1) = search_node (after ms c2).
Proof.
  induction ms as [|m ms IH]; intros c1 c2 Ht Hs Hc.
  - cbn. auto.
  - destruct (reached_without_mapper m c1 c2 Ht Hs Hc) as [Hr Hd].
    destruct (IH (this_after (call m c1)) (this_after (call m c2)))
      as (Hv & Htr & Hcur & Hsn).
    + now rewrite !tree_after_call.
    + now rewrite !search_after_call, Hs, Hc.
    + now rewrite !current_after_call.
    + unfold visited in *. cbn [outcomes map after].
      unfold entry_reached at 1 3.
      rewrite !current_after_call, !tree_calls_of_call, Hr, Hd, Hv, Htr.
      auto.
Qed.

(** X1.  The mapper has no say in the traversal: two cursors built over
    the same tree with the same interval but different mappers reach the
    same entries, make the same calls to the tree and end at the same
    position under any sequence of calls; what each returns is its own
    mapper applied to those entries. *)
Theorem traversal_independent_of_mapper
        (t : T) (seek : option Interval) (f g : jsval -> Interval -> jsval)
        (ms : list method) :
  visited ms (new_Cursor t seek f) = visited ms (new_Cursor t seek g)
  /\ map (fun o => filter is_tree_call (trace o))
         (outcomes ms (new_Cursor t seek f))
     = map (fun o => filter is_tree_call (trace o))
           (outcomes ms (new_Cursor t seek g))
  /\ current_node (after ms (new_Cursor t seek f))
     = current_node (after ms (new_Cursor t seek g))
  /\ results ms (new_Cursor t seek f)
     = map (mapped_or_null f) (visited ms (new_Cursor t seek g)).
Proof.
  destruct (walk_without_mapper ms (new_Cursor t seek f) (new_Cursor t seek g)
              eq_refl eq_refl eq_refl) as (Hv & Htr & Hc & _).
  repeat split; try assumption.
  rewrite results_visited, Hv. reflexivity.
Qed.

(** After at least one call, a cursor without position is a new cursor
    without interval. *)
Lemma state_without_position
      (t : T) (seek : option Interval) (f : jsval -> Interval -> jsval)
      (ms : list method) :
  ms <> [] ->
  current_node (after ms (new_Cursor t seek f)) = None ->
  after ms (new_Cursor t seek f) = new_Cursor t None f.
Proof.
  intros Hms Hnone. apply cursor_eq.
  - now rewrite tree_after.
  - now rewrite search_consumed.
  - now rewrite mapper_after.
  - exact Hnone.
Qed.

(** The last entry visited is where the cursor stands. *)
Lemma visited_snoc (ms : list method) (m : method) (c : Cursor T N) :
  visited (ms ++ [m]) c
  = visited ms c ++ [option_map item (current_node (after (ms ++ [m]) c))].
Proof. rewrite visited_append, after_snoc. reflexivity. Qed.

(** X2.  A cursor that some calls have left without a position is in the
    state of a cursor just built without interval: same tree, same mapper,
    no seek target, no position.  Every later sequence of calls therefore
    has the outcomes it has on a new cursor. *)
Theorem exhausted_cursor_is_fresh
        (t : T) (seek : option Interval) (f : jsval -> Interval -> jsval)
        (ms : list method) :
  ms <> [] ->
  current_node (after ms (new_Cursor t seek f)) = None ->
  after ms (new_Cursor t seek f) = new_Cursor t None f
  /\ forall later : list method,
      outcomes later (after ms (new_Cursor t seek f))
      = outcomes later (new_Cursor t None f).
Proof.
  intros Hms Hnone.
  pose proof (state_without_position t seek f Hms Hnone) as Heq.
  split; [exact Heq|]. intro later. now rewrite Heq.
Qed.

(** X3.  The cursor keeps no history besides its position: two cursors
    over the same tree with the same mapper, however built and whatever
    calls they went through (at least one each), that stand at the same
    position are the same cursor, and all their later calls agree. *)
Theorem cursor_state_is_its_position
        (t : T) (f : jsval -> Interval -> jsval) (seek1 seek2 : option Interval)
        (ms1 ms2 : list method) :
  ms1 <> [] -> ms2 <> [] ->
  current_node (after ms1 (new_Cursor t seek1 f))
  = current_node (after ms2 (new_Cursor t seek2 f)) ->
  after ms1 (new_Cursor t seek1 f) = after ms2 (new_Cursor t seek2 f)
  /\ forall later : list method,
      outcomes later (after ms1 (new_Cursor t seek1 f))
      = outcomes later (after ms2 (new_Cursor t seek2 f)).
Proof.
  intros H1 H2 Hpos.
  assert (Heq : after ms1 (new_Cursor t seek1 f)
                = after ms2 (new_Cursor t seek2 f)).
  { apply cursor_eq.
    - now rewrite !tree_after.
    - rewrite (search_consumed (ms:=ms1)), (search_consumed (ms:=ms2));
        solve [reflexivity | assumption].
    - now rewrite !mapper_after.
    - exact Hpos. }
  split; [exact Heq|]. intro later. now rewrite Heq.
Qed.

(** X4.  A cursor built without interval never runs a nearest-neighbour
    search, in any call of any sequence. *)
Theorem no_interval_no_search
        (t : T) (f : jsval -> Interval -> jsval) (ms : list method) :
  Forall (fun o => filter is_search_call (trace o) = [])
         (outcomes ms (new_Cursor t None f)).
Proof.
  assert (Hgen : forall c : Cursor T N,
             search_node c = None ->
             Forall (fun o => filter is_search_call (trace o) = [])
                    (outcomes ms c)).
  { induction ms as [|m ms IH]; intros c Hs; cbn [outcomes]; constructor.
    - rewrite search_calls_of_call, Hs. now destruct (current_node c).
    - apply IH. rewrite search_after_call, Hs. now destruct (current_node c). }
  apply Hgen. reflexivity.
Qed.

End CursorFurther.

(* ================================================================== *)
(** ** Further properties of the cursor over the tree model *)

(** X7.  Over the tree model, the mirror of going forth and back: when the
    cursor is anchored at a node [a] and [prev()] reaches the node [p], the
    [next()] right after reaches [a] again and returns its mapped entry;
    the entry of [p] comes right before the entry of [a] among the entries
    of the tree. *)
Theorem prev_then_next_returns
        (c : Cursor TM.IntervalTree TM.Node) (a p : TM.Node) :
  current_node c = Some a ->
  current_node (this_after (prev c)) = Some p ->
  TM.tree_successor p = Some a
  /\ filter is_tree_call (trace (next (this_after (prev c))))
     = [Call_tree_successor p]
  /\ current_node (this_after (next (this_after (prev c)))) = Some a
  /\ returned (next (this_after (prev c)))
     = mapped (outputMapperFn c) (TM.node_item a)
  /\ exists pre post,
      TM.items (TM.whole a)
      = pre ++ TM.node_item p :: TM.node_item a :: post.
Proof.
  intros Ha Hp.
  change next with (call (T:=TM.IntervalTree) Next) in *.
  change prev with (call (T:=TM.IntervalTree) Prev) in *.
  assert (Hprec : TM.tree_precursor a = Some p)
    by (rewrite current_after_call, model_reached, Ha in Hp; exact Hp).
  pose proof (successor_of_precursor _ Hprec) as Hback.
  assert (Hr : reached Next (this_after (call Prev c)) = Some a)
    by (now rewrite model_reached, Hp).
  split; [exact Hback|]. split.
  { rewrite tree_calls_of_call. unfold delegated. now rewrite Hp. }
  split; [now rewrite current_after_call|]. split.
  { rewrite returned_of_call, mapper_after_call. unfold entry_reached.
    now rewrite current_after_call, Hr. }
  pose proof (tree_precursor_spec a) as Hspec. rewrite Hprec in Hspec.
  destruct Hspec as (_ & _ & Hpre).
  exists (TM.preceding p), (TM.succeeding a).
  rewrite items_whole, Hpre, <- app_assoc. reflexivity.
Qed.

(** *** The position belongs to the tree *)

Lemma search_forward_whole (k : Interval) (sub : TM.subtree) :
  forall (up : list TM.link) (best : option TM.Node),
    (forall b, best = Some b -> TM.whole b = TM.plug sub up) ->
    forall n, TM.search_forward k sub up best = Some n ->
              TM.whole n = TM.plug sub up.
Proof.
  induction sub as [|l IHl it r IHr]; intros up best Hbest n Hn;
    cbn [TM.search_forward] in Hn.
  - now apply Hbest.
  - destruct (less_than (key it) k).
    + apply (IHr (TM.IsRightChild l it :: up) best); [|exact Hn].
      intros b Hb. now apply Hbest.
    + apply (IHl (TM.IsLeftChild it r :: up) (Some (TM.mkNode l it r up)));
        [|exact Hn].
      intros b [= <-]. reflexivity.
Qed.

Lemma search_backward_whole (k : Interval) (sub : TM.subtree) :
  forall (up : list TM.link) (best : option TM.Node),
    (forall b, best = Some b -> TM.whole b = TM.plug sub up) ->
    forall n, TM.search_backward k sub up best = Some n ->
              TM.whole n = TM.plug sub up.
Proof.
  induction sub as [|l IHl it r IHr]; intros up best Hbest n Hn;
    cbn [TM.search_backward] in Hn.
  - now apply Hbest.
  - destruct (less_than k (key it)).
    + apply (IHl (TM.IsLeftChild it r :: up) best); [|exact Hn].
      intros b Hb. now apply Hbest.
    + apply (IHr (TM.IsRightChild l it :: up) (Some (TM.mkNode l it r up)));
        [|exact Hn].
      intros b [= <-]. reflexivity.
Qed.

(** A call made from a position inside the tree, or from none, reaches a
    node of the tree. *)
Lemma reached_in_tree (m : method) (c : Cursor TM.IntervalTree TM.Node) :
  (forall a, current_node c = Some a -> TM.whole a = TM.top (tree c)) ->
  forall n, reached m c = Some n -> TM.whole n = TM.top (tree c).
Proof.
  intros Hvalid n. rewrite model_reached.
  destruct (current_node c) as [a|].
  - specialize (Hvalid a eq_refl). rewrite <- Hvalid.
    destruct m; intro Hn.
    + pose proof (tree_successor_spec a) as Hs. rewrite Hn in Hs. tauto.
    + pose proof (tree_precursor_spec a) as Hs. rewrite Hn in Hs. tauto.
  - clear Hvalid. unfold TM.root. destruct (TM.top (tree c)) as [|l it r].
    + destruct (search_node c), m; discriminate.
    + destruct (search_node c) as [s|], m;
        cbn [TM.tree_search_nearest_forward TM.tree_search_nearest_backward
             TM.local_minimum TM.local_maximum
             TM.left TM.node_item TM.right TM.parent]; intro Hn.
      * apply (@search_forward_whole (key (TM.node_item s))
                                     (TM.Fork l it r) [] None);
          [intros b Hb; discriminate|exact Hn].
      * apply (@search_backward_whole (key (TM.node_item s))
                                      (TM.Fork l it r) [] None);
          [intros b Hb; discriminate|exact Hn].
      * injection Hn as <-. now destruct (leftmost_spec l it r []).
      * injection Hn as <-. now destruct (rightmost_spec r l it []).
Qed.

Lemma position_in_tree (ms : list method) :
  forall c : Cursor TM.IntervalTree TM.Node,
    (forall a, current_node c = Some a -> TM.whole a = TM.top (tree c)) ->
    forall n, current_node (after ms c) = Some n ->
              TM.whole n = TM.top (tree c).
Proof.
  induction ms as [|m ms IH]; intros c Hvalid n Hn; cbn [after] in Hn.
  - now apply Hvalid.
  - rewrite <- (tree_after_call m c). apply (IH (this_after (call m c))).
    + intros a Ha. rewrite tree_after_call.
      rewrite current_after_call in Ha. now apply (reached_in_tree m c).
    + exact Hn.
Qed.

(** The node without successor is the maximum of its tree, the node
    without predecessor the minimum. *)
Lemma rightmost_of_plug (up : list TM.link) :
  forall (bl : TM.subtree) (bit : Item) (br : TM.subtree),
    TM.first_parent_from_left (TM.Fork bl bit br) up = None ->
    exists l it r,
      TM.plug (TM.Fork bl bit br) up = TM.Fork l it r
      /\ TM.rightmost l it r [] = TM.rightmost bl bit br up.
Proof.
  induction up as [|[pit sib|sib pit] up IH]; intros bl bit br Hc; cbn in Hc.
  - exists bl, bit, br. split; reflexivity.
  - discriminate.
  - destruct (IH _ _ _ Hc) as (l & it & r & Hp & Hr).
    exists l, it, r. split; [exact Hp|]. rewrite Hr. reflexivity.
Qed.

Lemma leftmost_of_plug (up : list TM.link) :
  forall (bl : TM.subtree) (bit : Item) (br : TM.subtree),
    TM.first_parent_from_right (TM.Fork bl bit br) up = None ->
    exists l it r,
      TM.plug (TM.Fork bl bit br) up = TM.Fork l it r
      /\ TM.leftmost l it r [] = TM.leftmost bl bit br up.
Proof.
  induction up as [|[pit sib|sib pit] up IH]; intros bl bit br Hc; cbn in Hc.
  - exists bl, bit, br. split; reflexivity.
  - destruct (IH _ _ _ Hc) as (l & it & r & Hp & Hr).
    exists l, it, r. split; [exact Hp|]. rewrite Hr. reflexivity.
  - discriminate.
Qed.

Lemma last_node_is_maximum (t : TM.IntervalTree) (a : TM.Node) :
  TM.whole a = TM.top t -> TM.tree_successor a = None ->
  option_map TM.local_maximum (TM.root t) = Some a.
Proof.
  destruct a as [l it r up]. unfold TM.tree_successor, TM.whole, TM.root. cbn.
  intros Hw Hs. destruct r as [|rl rit rr]; [|discriminate].
  destruct (rightmost_of_plug _ _ _ _ Hs) as (l' & it' & r' & Hp & Hr).
  rewrite <- Hw, Hp. cbn. unfold TM.local_maximum. cbn. now rewrite Hr.
Qed.

Lemma first_node_is_minimum (t : TM.IntervalTree) (a : TM.Node) :
  TM.whole a = TM.top t -> TM.tree_precursor a = None ->
  option_map TM.local_minimum (TM.root t) = Some a.
Proof.
  destruct a as [l it r up]. unfold TM.tree_precursor, TM.whole, TM.root. cbn.
  intros Hw Hs. destruct l as [|ll lit lr]; [|discriminate].
  destruct (leftmost_of_plug _ _ _ _ Hs) as (l' & it' & r' & Hp & Hr).
  rewrite <- Hw, Hp. cbn. unfold TM.local_minimum. cbn. now rewrite Hr.
Qed.

(** X8.  Over the tree model, from any position a cursor has come to
    stand at by calls since it was built, [next()] followed by [prev()]
    brings the cursor back to that position and returns its mapped entry,
    also when the position is the last entry of the tree (the [next()]
    then finds nothing and the [prev()] starts again from the maximum);
    likewise [prev()] followed by [next()]. *)
Theorem forth_and_back_to_the_anchor
        (t : TM.IntervalTree) (seek : option Interval)
        (f : jsval -> Interval -> jsval) (ms : list method) (a : TM.Node) :
  current_node (after ms (new_Cursor t seek f)) = Some a ->
  (current_node (after [Next; Prev] (after ms (new_Cursor t seek f))) = Some a
   /\ returned (prev (this_after (next (after ms (new_Cursor t seek f)))))
      = mapped f (TM.node_item a))
  /\ (current_node (after [Prev; Next] (after ms (new_Cursor t seek f))) = Some a
      /\ returned (next (this_after (prev (after ms (new_Cursor t seek f)))))
         = mapped f (TM.node_item a)).
Proof.
  intro Ha.
  change next with (call (T:=TM.IntervalTree) Next).
  change prev with (call (T:=TM.IntervalTree) Prev).
  assert (Hms : ms <> []) by (intros ->; discriminate Ha).
  assert (Hvalid : TM.whole a = TM.top t).
  { apply (@position_in_tree ms (new_Cursor t seek f)); [|exact Ha].
    intros b Hb. discriminate Hb. }
  assert (Hs : search_node (after ms (new_Cursor t seek f)) = None)
    by (apply search_consumed; [reflexivity|exact Hms]).
  assert (Ht : tree (after ms (new_Cursor t seek f)) = t) by apply tree_after.
  assert (Hf : outputMapperFn (after ms (new_Cursor t seek f)) = f)
    by apply mapper_after.
  set (c := after ms (new_Cursor t seek f)) in *.
  assert (Hround : forall m1 m2 : method,
             (m1 = Next /\ m2 = Prev) \/ (m1 = Prev /\ m2 = Next) ->
             reached m2 (this_after (call m1 c)) = Some a).
  { intros m1 m2 Hm.
    assert (H1 : current_node (this_after (call m1 c))
                 = match m1 with
                   | Next => TM.tree_successor a
                   | Prev => TM.tree_precursor a
                   end)
      by (rewrite current_after_call, model_reached, Ha; now destruct m1).
    assert (Hs1 : search_node (this_after (call m1 c)) = None)
      by (now rewrite search_after_call, Ha).
    assert (Ht1 : tree (this_after (call m1 c)) = t)
      by (now rewrite tree_after_call).
    rewrite model_reached, H1, Hs1, Ht1.
    destruct Hm as [[-> ->]|[-> ->]].
    - destruct (TM.tree_successor a) as [n|] eqn:Hsucc.
      + now apply precursor_of_successor.
      + pose proof (last_node_is_maximum t a Hvalid Hsucc) as Hmax.
        destruct (TM.root t); [exact Hmax|discriminate Hmax].
    - destruct (TM.tree_precursor a) as [p|] eqn:Hprec.
      + now apply successor_of_precursor.
      + pose proof (first_node_is_minimum t a Hvalid Hprec) as Hmin.
        destruct (TM.root t); [exact Hmin|discriminate Hmin]. }
  split; split.
  - cbn [after]. rewrite current_after_call. apply Hround. now left.
  - rewrite returned_of_call, mapper_after_call, Hf. unfold entry_reached.
    rewrite current_after_call, Hround; [reflexivity|now left].
  - cbn [after]. rewrite current_after_call. apply Hround. now right.
  - rewrite returned_of_call, mapper_after_call, Hf. unfold entry_reached.
    rewrite current_after_call, Hround; [reflexivity|now right].
Qed.

(** *** Walking a range *)

Lemma filter_none (A : Type) (p : A -> bool) (l : list A) :
  Forall (fun x => p x = false) l -> filter p l = [].
Proof.
  induction 1 as [|x l Hx _ IH]; cbn; [reflexivity|]. now rewrite Hx.
Qed.

Lemma filter_all (A : Type) (p : A -> bool) (l : list A) :
  Forall (fun x => p x = true) l -> filter p l = l.
Proof.
  induction 1 as [|x l Hx _ IH]; cbn; [reflexivity|]. now rewrite Hx, IH.
Qed.

(** The forward search splits the entries of a search tree: those below the
    target, which it skips, and those from the node it finds onwards. *)
Lemma seek_forward_split (t : TM.IntervalTree) (k : Interval) :
  TM.is_search_tree (TM.top t) = true ->
  match TM.tree_search_nearest_forward (TM.root t) (TM.new_Node k) with
  | None => filter (fun e => negb (less_than (key e) k)) (TM.entries t) = []
  | Some n =>
      filter (fun e => negb (less_than (key e) k)) (TM.entries t)
      = TM.node_item n :: TM.succeeding n
  end.
Proof.
  intro Hst. unfold TM.root, TM.entries.
  destruct (TM.top t) as [|l it r]; [reflexivity|].
  cbn [TM.tree_search_nearest_forward TM.new_Node TM.node_item key
       TM.left TM.right TM.parent].
  pose proof (search_forward_spec k (TM.Fork l it r) [] None Hst
                (Forall_nil _) eq_refl) as Hspec.
  apply search_tree_ascending in Hst.
  destruct (TM.search_forward k (TM.Fork l it r) [] None) as [n|];
    cbn [TM.plug] in Hspec.
  - destruct Hspec as (Hw & Hpre & Hk).
    pose proof (items_whole n) as Hitems. rewrite Hw in Hitems.
    rewrite Hitems in Hst |- *.
    apply ascending_app_inv in Hst. destruct Hst as [_ Hpost].
    rewrite filter_app. cbn [filter]. rewrite Hk. cbn [negb].
    rewrite filter_none, filter_all; [reflexivity| |].
    + eapply Forall_impl; [|exact Hpost]. cbn. intros e He.
      destruct (less_than (key e) k) eqn:Hek; [|reflexivity].
      rewrite (less_than_trans _ _ _ He Hek) in Hk. discriminate.
    + eapply Forall_impl; [|exact Hpre]. cbn. now intros e ->.
  - apply filter_none. eapply Forall_impl; [|exact Hspec].
    cbn. now intros e ->.
Qed.

Lemma seek_backward_split (t : TM.IntervalTree) (k : Interval) :
  TM.is_search_tree (TM.top t) = true ->
  match TM.tree_search_nearest_backward (TM.root t) (TM.new_Node k) with
  | None => filter (fun e => negb (less_than k (key e))) (TM.entries t) = []
  | Some n =>
      filter (fun e => negb (less_than k (key e))) (TM.entries t)
      = TM.preceding n ++ [TM.node_item n]
  end.
Proof.
  intro Hst. unfold TM.root, TM.entries.
  destruct (TM.top t) as [|l it r]; [reflexivity|].
  cbn [TM.tree_search_nearest_backward TM.new_Node TM.node_item key
       TM.left TM.right TM.parent].
  pose proof (search_backward_spec k (TM.Fork l it r) [] None Hst
                (Forall_nil _) eq_refl) as Hspec.
  apply search_tree_ascending in Hst.
  destruct (TM.search_backward k (TM.Fork l it r) [] None) as [n|];
    cbn [TM.plug] in Hspec.
  - destruct Hspec as (Hw & Hpost & Hk).
    pose proof (items_whole n) as Hitems. rewrite Hw in Hitems.
    rewrite Hitems in Hst |- *.
    apply ascending_app_inv in Hst. destruct Hst as [Hpre _].
    rewrite filter_app. cbn [filter]. rewrite Hk. cbn [negb].
    rewrite filter_all, filter_none; [reflexivity| |].
    + eapply Forall_impl; [|exact Hpost]. cbn. now intros e ->.
    + eapply Forall_impl; [|exact Hpre]. cbn. intros e He.
      destruct (less_than k (key e)) eqn:Hke; [|reflexivity].
      rewrite (less_than_trans _ _ _ Hke He) in Hk. discriminate.
  - apply filter_none. eapply Forall_impl; [|exact Hspec].
    cbn. now intros e ->.
Qed.

(** X5.  Over the tree model, a cursor seeded with an interval and driven
    by [next()] alone reaches exactly the entries of the search tree whose
    key is at or after the interval, in ascending order, one per call, and
    then nothing; driven by [prev()] alone it reaches exactly the entries
    whose key is at or before the interval, in descending order, and then
    nothing. *)
Theorem seeded_walk_is_the_range
        (t : TM.IntervalTree) (k : Interval) (f : jsval -> Interval -> jsval) :
  TM.is_search_tree (TM.top t) = true ->
  (visited
     (repeat Next
        (S (List.length
              (filter (fun e => negb (less_than (key e) k)) (TM.entries t)))))
     (new_Cursor t (Some k) f)
   = map Some (filter (fun e => negb (less_than (key e) k)) (TM.entries t))
     ++ [None]
   /\ results
        (repeat Next
           (S (List.length
                 (filter (fun e => negb (less_than (key e) k)) (TM.entries t)))))
        (new_Cursor t (Some k) f)
      = map (mapped f)
            (filter (fun e => negb (less_than (key e) k)) (TM.entries t))
        ++ [JNull])
  /\ (visited
        (repeat Prev
           (S (List.length
                 (filter (fun e => negb (less_than k (key e))) (TM.entries t)))))
        (new_Cursor t (Some k) f)
      = map Some
            (rev (filter (fun e => negb (less_than k (key e))) (TM.entries t)))
        ++ [None]
      /\ results
           (repeat Prev
              (S (List.length
                    (filter (fun e => negb (less_than k (key e)))
                            (TM.entries t)))))
           (new_Cursor t (Some k) f)
         = map (mapped f)
               (rev (filter (fun e => negb (less_than k (key e)))
                            (TM.entries t)))
           ++ [JNull]).
Proof.
  intro Hst.
  assert (Hfwd : visited
     (repeat Next
        (S (List.length
              (filter (fun e => negb (less_than (key e) k)) (TM.entries t)))))
     (new_Cursor t (Some k) f)
   = map Some (filter (fun e => negb (less_than (key e) k)) (TM.entries t))
     ++ [None]).
  { pose proof (seek_forward_split t k Hst) as Hsplit.
    assert (Hr : reached Next (new_Cursor t (Some k) f)
                 = TM.tree_search_nearest_forward (TM.root t) (TM.new_Node k))
      by (rewrite model_reached; reflexivity).
    destruct (TM.tree_search_nearest_forward (TM.root t) (TM.new_Node k))
      as [n|]; rewrite Hsplit; cbn [List.length repeat];
      rewrite visited_cons, Hr; [|reflexivity].
    cbn [option_map map app]. f_equal.
    apply (walk_forward (n := n)); [|reflexivity].
    now rewrite current_after_call. }
  assert (Hbwd : visited
        (repeat Prev
           (S (List.length
                 (filter (fun e => negb (less_than k (key e))) (TM.entries t)))))
        (new_Cursor t (Some k) f)
      = map Some
            (rev (filter (fun e => negb (less_than k (key e))) (TM.entries t)))
        ++ [None]).
  { pose proof (seek_backward_split t k Hst) as Hsplit.
    assert (Hr : reached Prev (new_Cursor t (Some k) f)
                 = TM.tree_search_nearest_backward (TM.root t) (TM.new_Node k))
      by (rewrite model_reached; reflexivity).
    destruct (TM.tree_search_nearest_backward (TM.root t) (TM.new_Node k))
      as [n|]; rewrite Hsplit.
    - rewrite rev_app_distr, length_app. cbn [rev app List.length].
      rewrite Nat.add_1_r. cbn [repeat]. rewrite visited_cons, Hr.
      cbn [option_map map app]. f_equal. rewrite <- length_rev.
      apply (walk_backward (n := n)); [|reflexivity].
      now rewrite current_after_call.
    - cbn [List.length repeat rev]. rewrite visited_cons, Hr. reflexivity. }
  split; (split; [assumption|]).
  - rewrite results_visited, Hfwd. apply mapped_walk.
  - rewrite results_visited, Hbwd. apply mapped_walk.
Qed.

(** *** Walking round and round *)

Lemma position_after_full_walk
      (m : method) (n : nat) (c : Cursor TM.IntervalTree TM.Node)
      (es : list Item) :
  visited (repeat m (S n)) c = map Some es ++ [None] ->
  current_node (after (repeat m (S n)) c) = None.
Proof.
  cbn [repeat]. rewrite repeat_cons, visited_snoc. intro Hv.
  apply app_inj_tail in Hv. destruct Hv as [_ Hlast].
  destruct (current_node _); [discriminate Hlast|reflexivity].
Qed.

Lemma rounds_of_a_walk
      (m : method) (n : nat) (t : TM.IntervalTree)
      (f : jsval -> Interval -> jsval) (es : list Item) :
  visited (repeat m (S n)) (new_Cursor t None f) = map Some es ++ [None] ->
  forall k : nat,
    results (repeat m (k * S n)) (new_Cursor t None f)
    = List.concat (repeat (map (mapped f) es ++ [JNull]) k).
Proof.
  intros Hv k. induction k as [|k IH]; [reflexivity|].
  cbn [Nat.mul]. rewrite repeat_app, results_append.
  rewrite state_without_position;
    [|discriminate|exact (@position_after_full_walk m n _ es Hv)].
  rewrite IH, results_visited, Hv, mapped_walk. reflexivity.
Qed.

(** X6.  Over the tree model, traversal goes round and round: [k] times
    n+1 calls of [next()] on a cursor built without interval over a tree
    of n entries return [k] times over the mapped entries in order
    followed by [null]; [prev()] likewise in reverse order. *)
Theorem walk_repeats
        (t : TM.IntervalTree) (f : jsval -> Interval -> jsval) (k : nat) :
  results (repeat Next (k * S (List.length (TM.entries t))))
          (new_Cursor t None f)
  = List.concat (repeat (map (mapped f) (TM.entries t) ++ [JNull]) k)
  /\ results (repeat Prev (k * S (List.length (TM.entries t))))
             (new_Cursor t None f)
     = List.concat (repeat (map (mapped f) (rev (TM.entries t)) ++ [JNull]) k).
Proof.
  split; apply rounds_of_a_walk.
  - now apply fresh_walk_forward.
  - now apply fresh_walk_backward.
Qed.

(* ================================================================== *)
(** ** The further theorems at work on sample trees *)

Lemma exhausted_cursor_is_fresh_witness :
  ([Next; Next] <> []
   /\ current_node (after [Next; Next] (new_Cursor tree_3_7 (Some (point 5)) key_of))
      = None)
  /\ after [Next; Next] (new_Cursor tree_3_7 (Some (point 5)) key_of)
     = new_Cursor tree_3_7 None key_of.
Proof.
  assert (Hms : [Next; Next] <> []) by discriminate.
  split; [split; [exact Hms|reflexivity]|].
  exact (proj1 (@exhausted_cursor_is_fresh _ _ _ tree_3_7 (Some (point 5))
                  key_of [Next; Next] Hms eq_refl)).
Defined.

(** Seeking [4,4] and walking up to [4,4] end in the same cursor. *)
Lemma cursor_state_is_its_position_witness :
  ([Next] <> [] /\ [Next; Next; Next; Next] <> []
   /\ current_node (after [Next] (new_Cursor tree_six (Some (point 4)) value_of))
      = current_node
          (after [Next; Next; Next; Next] (new_Cursor tree_six None value_of)))
  /\ after [Next] (new_Cursor tree_six (Some (point 4)) value_of)
     = after [Next; Next; Next; Next] (new_Cursor tree_six None value_of).
Proof.
  assert (H1 : [Next] <> []) by discriminate.
  assert (H2 : [Next; Next; Next; Next] <> []) by discriminate.
  split; [repeat split; assumption|].
  exact (proj1 (@cursor_state_is_its_position _ _ _ tree_six value_of
                  (Some (point 4)) None [Next] [Next; Next; Next; Next]
                  H1 H2 eq_refl)).
Defined.

Lemma seeded_walk_is_the_range_witness :
  TM.is_search_tree (TM.top tree_six) = true
  /\ results (repeat Next 3) (new_Cursor tree_six (Some (point 5)) value_of)
     = [JNum 60; JNum 90; JNull]
  /\ results (repeat Prev 5) (new_Cursor tree_six (Some (point 5)) value_of)
     = [JNum 40; JNum 30; JNum 20; JNum 10; JNull].
Proof.
  split; [reflexivity|].
  destruct (@seeded_walk_is_the_range tree_six (point 5) value_of eq_refl)
    as [[_ Hnext] [_ Hprev]].
  split; [exact Hnext|exact Hprev].
Defined.

(** A cursor anchored at [4,4]: [prev()] reaches [3,3], [next()] comes
    back. *)
Lemma prev_then_next_returns_witness :
  (current_node (after [Next] (new_Cursor tree_six (Some (point 4)) value_of))
   = TM.tree_search_nearest_forward (TM.root tree_six) (TM.new_Node (point 4))
   /\ current_node
        (this_after
           (prev (after [Next] (new_Cursor tree_six (Some (point 4)) value_of))))
      = TM.tree_search_nearest_forward (TM.root tree_six) (TM.new_Node (point 3)))
  /\ returned
       (next
          (this_after
             (prev (after [Next] (new_Cursor tree_six (Some (point 4)) value_of)))))
     = JNum 40.
Proof.
  split; [split; reflexivity|].
  assert (Ha : current_node
                 (after [Next] (new_Cursor tree_six (Some (point 4)) value_of))
               = TM.tree_search_nearest_forward (TM.root tree_six)
                   (TM.new_Node (point 4))) by reflexivity.
  assert (Hp : current_node
                 (this_after
                    (prev (after [Next]
                             (new_Cursor tree_six (Some (point 4)) value_of))))
               = TM.tree_search_nearest_forward (TM.root tree_six)
                   (TM.new_Node (point 3))) by reflexivity.
  destruct (@prev_then_next_returns _ _ _ Ha Hp) as (_ & _ & _ & Hret & _).
  exact Hret.
Defined.

(** A cursor at the last entry, [9,9]: [next()] finds nothing, [prev()]
    comes back to [9,9]. *)
Lemma forth_and_back_to_the_anchor_witness :
  current_node (after (repeat Next 6) (new_Cursor tree_six None value_of))
  = TM.tree_search_nearest_forward (TM.root tree_six) (TM.new_Node (point 9))
  /\ results [Next; Prev]
       (after (repeat Next 6) (new_Cursor tree_six None value_of))
     = [JNull; JNum 90].
Proof.
  split; [reflexivity|].
  assert (Ha : current_node
                 (after (repeat Next 6) (new_Cursor tree_six None value_of))
               = TM.tree_search_nearest_forward (TM.root tree_six)
                   (TM.new_Node (point 9))) by reflexivity.
  destruct (@forth_and_back_to_the_anchor tree_six None value_of
              (repeat Next 6) _ Ha) as [[_ Hret] _].
  change (results [Next; Prev]
            (after (repeat Next 6) (new_Cursor tree_six None value_of)))
    with [JNull;
          returned
            (prev (this_after
                     (next (after (repeat Next 6)
                                  (new_Cursor tree_six None value_of)))))].
  now rewrite Hret.
Defined.
